(** * Tic-Tac-Toe: board evaluator, game state and the tiered opponent

    A shallow embedding of [constants.py], [game_logic.py] and [ai.py].

    - A cell is [None], ["X"] or ["O"]; a board is the list of rows that
      [GameState.__init__] builds.  Every function below indexes the board
      with [range(BOARD_ROWS)] and [range(BOARD_COLS)] only, so the results
      are stated for 3x3 boards ([wf_board]).
    - Python integers are [Z]; loop indices over [range(3)] are [nat].
    - [float('-inf')] and [float('inf')] are the two extra points of [score].
    - The recursion of [_minimax] is driven by a fuel argument; the section on
      termination shows that [search_fuel] always suffices.
    - [random.random()] and [random.choice] read their outcome from an explicit
      record of draws; [time.sleep] only delays and is left out. *)

From Stdlib Require Import String Ascii.
From Stdlib Require Import List ZArith QArith Bool Lia Arith Setoid.
Import ListNotations.

Local Close Scope Q_scope.
Local Open Scope nat_scope.

(** ** constants.py *)

Definition WIDTH : Z := 600.
Definition BOARD_ROWS : nat := 3.
Definition BOARD_COLS : nat := 3.

(** ** Cells and boards *)

Inductive mark : Type := X | O.

Definition cell : Type := option mark.
Definition board : Type := list (list cell).
Definition move : Type := (nat * nat)%type.

Definition mark_eqb (a b : mark) : bool :=
  match a, b with
  | X, X | O, O => true
  | _, _ => false
  end.

(** [a == b] on cell contents. *)
Definition cell_eqb (a b : cell) : bool :=
  match a, b with
  | None, None => true
  | Some x, Some y => mark_eqb x y
  | _, _ => false
  end.

(** [a is None] and [a is not None]. *)
Definition is_none (a : cell) : bool :=
  match a with None => true | Some _ => false end.

Definition is_not_none (a : cell) : bool := negb (is_none a).

Definition other (p : mark) : mark :=
  match p with X => O | O => X end.

(** [l[i] = v] on a list. *)
Fixpoint list_set {A : Type} (l : list A) (i : nat) (v : A) : list A :=
  match l, i with
  | [], _ => []
  | _ :: t, 0 => v :: t
  | h :: t, S j => h :: list_set t j v
  end.

(** [board[r][c]]. *)
Definition get_cell (b : board) (r c : nat) : cell :=
  nth c (nth r b []) None.

(** [board[r][c] = v]. *)
Definition set_cell (b : board) (r c : nat) (v : cell) : board :=
  list_set b r (list_set (nth r b []) c v).

(** [[[None for _ in range(BOARD_COLS)] for _ in range(BOARD_ROWS)]]. *)
Definition empty_board : board :=
  repeat (repeat (None : cell) BOARD_COLS) BOARD_ROWS.

Definition wf_board (b : board) : Prop :=
  length b = BOARD_ROWS /\ Forall (fun row => length row = BOARD_COLS) b.

(** A loop [for i in l: if ...: return ...] whose body either returns or falls
    through to the next index. *)
Fixpoint first_some {A : Type} (f : nat -> option A) (l : list nat) : option A :=
  match l with
  | [] => None
  | i :: rest =>
      match f i with
      | Some a => Some a
      | None => first_some f rest
      end
  end.

(** ** Scores: Python numbers extended by the two infinities *)

Inductive score : Type :=
  | NegInf
  | Fin (z : Z)
  | PosInf.

Definition score_ltb (a b : score) : bool :=
  match a, b with
  | NegInf, NegInf => false
  | NegInf, _ => true
  | Fin _, NegInf => false
  | Fin x, Fin y => (x <? y)%Z
  | Fin _, PosInf => true
  | PosInf, _ => false
  end.

Definition score_leb (a b : score) : bool := negb (score_ltb b a).

(** [max(a, b)]: the first argument unless the second is strictly larger. *)
Definition score_max (a b : score) : score :=
  if score_ltb a b then b else a.

(** [min(a, b)]: the first argument unless the second is strictly smaller. *)
Definition score_min (a b : score) : score :=
  if score_ltb b a then b else a.

(** ** ai.py: the pure board helpers of [AIPlayer] *)

Module AI.

(** The body of the row loop of [_check_winner]. *)
Definition row_hit (b : board) (row : nat) : cell :=
  if cell_eqb (get_cell b row 0) (get_cell b row 1)
     && cell_eqb (get_cell b row 1) (get_cell b row 2)
     && is_not_none (get_cell b row 0)
  then get_cell b row 0
  else None.

(** The body of the column loop of [_check_winner]. *)
Definition col_hit (b : board) (col : nat) : cell :=
  if cell_eqb (get_cell b 0 col) (get_cell b 1 col)
     && cell_eqb (get_cell b 1 col) (get_cell b 2 col)
     && is_not_none (get_cell b 0 col)
  then get_cell b 0 col
  else None.

(** [AIPlayer._check_winner]. *)
Definition check_winner (b : board) : cell :=
  match first_some (row_hit b) (seq 0 BOARD_ROWS) with
  | Some s => Some s
  | None =>
      match first_some (col_hit b) (seq 0 BOARD_COLS) with
      | Some s => Some s
      | None =>
          if cell_eqb (get_cell b 0 0) (get_cell b 1 1)
             && cell_eqb (get_cell b 1 1) (get_cell b 2 2)
             && is_not_none (get_cell b 0 0)
          then get_cell b 0 0
          else if cell_eqb (get_cell b 0 2) (get_cell b 1 1)
                  && cell_eqb (get_cell b 1 1) (get_cell b 2 0)
                  && is_not_none (get_cell b 0 2)
          then get_cell b 0 2
          else None
      end
  end.

(** [AIPlayer._is_board_full]. *)
Definition is_board_full (b : board) : bool :=
  forallb (fun row => forallb is_not_none row) b.

(** [AIPlayer._get_empty_cells]: row-major list of the free coordinates. *)
Definition get_empty_cells (b : board) : list move :=
  flat_map
    (fun r =>
       flat_map
         (fun c => if is_none (get_cell b r c) then [(r, c)] else [])
         (seq 0 BOARD_COLS))
    (seq 0 BOARD_ROWS).

End AI.

(** ** game_logic.py: [GameState] *)

Definition line : Type := (Z * Z * Z * Z)%type.

Record GameState : Type := mkGameState {
  gs_board : board;
  gs_player : mark;
  gs_game_over : bool;
  gs_winner : cell;
  gs_winning_line : option line;
  gs_move_start_time : Q;
  gs_player_time : Q;
  gs_ai_time : Q
}.

Definition with_board (gs : GameState) (b : board) : GameState :=
  mkGameState b (gs_player gs) (gs_game_over gs) (gs_winner gs) (gs_winning_line gs)
              (gs_move_start_time gs) (gs_player_time gs) (gs_ai_time gs).

Definition with_winning_line (gs : GameState) (l : line) : GameState :=
  mkGameState (gs_board gs) (gs_player gs) (gs_game_over gs) (gs_winner gs) (Some l)
              (gs_move_start_time gs) (gs_player_time gs) (gs_ai_time gs).

Module Game.

(** [GameState.__init__]; [now] is the reading of [time.time()]. *)
Definition init (now : Q) : GameState :=
  mkGameState empty_board X false None None now 0%Q 0%Q.

(** [GameState.make_move]; [now1] and [now2] are the two readings of
    [time.time()].  The result is the returned flag and the state left
    behind. *)
Definition make_move (gs : GameState) (row col : Z) (now1 now2 : Q) : bool * GameState :=
  if ((0 <=? row)%Z && (row <? Z.of_nat BOARD_ROWS)%Z
      && ((0 <=? col)%Z && (col <? Z.of_nat BOARD_COLS)%Z)
      && is_none (get_cell (gs_board gs) (Z.to_nat row) (Z.to_nat col)))%bool
  then
    let move_time := (now1 - gs_move_start_time gs)%Q in
    let player_time :=
      match gs_player gs with
      | X => (gs_player_time gs + move_time)%Q
      | O => gs_player_time gs
      end in
    let ai_time :=
      match gs_player gs with
      | X => gs_ai_time gs
      | O => (gs_ai_time gs + move_time)%Q
      end in
    (true,
     mkGameState
       (set_cell (gs_board gs) (Z.to_nat row) (Z.to_nat col) (Some (gs_player gs)))
       (gs_player gs) (gs_game_over gs) (gs_winner gs) (gs_winning_line gs)
       now2 player_time ai_time)
  else (false, gs).

Definition cell_span : Z := (WIDTH / Z.of_nat BOARD_COLS)%Z.

(** The body of the row loop of [GameState.check_winner]: the unpacking
    [a, b, c = self.board[row]] needs a row of three cells. *)
Definition row_hit (b : board) (row : nat) : option (mark * line) :=
  match nth row b [] with
  | [a; b'; c] =>
      match a with
      | Some s =>
          if (cell_eqb a b' && cell_eqb b' c)%bool then
            let y := (Z.of_nat row * cell_span + cell_span / 2)%Z in
            Some (s, (20, y, WIDTH - 20, y)%Z)
          else None
      | None => None
      end
  | _ => None
  end.

(** The body of the column loop of [GameState.check_winner]. *)
Definition col_hit (b : board) (col : nat) : option (mark * line) :=
  match get_cell b 0 col with
  | Some s =>
      if (cell_eqb (Some s) (get_cell b 1 col)
          && cell_eqb (get_cell b 1 col) (get_cell b 2 col))%bool then
        let x := (Z.of_nat col * cell_span + cell_span / 2)%Z in
        Some (s, (x, 20, x, cell_span * Z.of_nat BOARD_ROWS - 20)%Z)
      else None
  | None => None
  end.

(** The two diagonal tests of [GameState.check_winner]. *)
Definition diag_hit (b : board) : option (mark * line) :=
  match get_cell b 1 1 with
  | Some s =>
      if (cell_eqb (get_cell b 0 0) (Some s) && cell_eqb (Some s) (get_cell b 2 2))%bool then
        Some (s, (20, 20, WIDTH - 20, cell_span * Z.of_nat BOARD_ROWS - 20)%Z)
      else if (cell_eqb (get_cell b 0 2) (Some s)
               && cell_eqb (Some s) (get_cell b 2 0))%bool then
        Some (s, (WIDTH - 20, 20, 20, cell_span * Z.of_nat BOARD_ROWS - 20)%Z)
      else None
  | None => None
  end.

(** The winner found by [GameState.check_winner] together with the highlight
    line it stores. *)
Definition find_winner (b : board) : option (mark * line) :=
  match first_some (row_hit b) (seq 0 BOARD_ROWS) with
  | Some hit => Some hit
  | None =>
      match first_some (col_hit b) (seq 0 BOARD_COLS) with
      | Some hit => Some hit
      | None => diag_hit b
      end
  end.

(** [GameState.check_winner]: the returned symbol and the state left behind. *)
Definition check_winner (gs : GameState) : cell * GameState :=
  match find_winner (gs_board gs) with
  | Some (s, l) => (Some s, with_winning_line gs l)
  | None => (None, gs)
  end.

(** [GameState.is_board_full]. *)
Definition is_board_full (gs : GameState) : bool :=
  forallb (fun row => forallb is_not_none row) (gs_board gs).

(** [GameState.get_empty_cells]. *)
Definition get_empty_cells (gs : GameState) : list move :=
  flat_map
    (fun r =>
       flat_map
         (fun c => if is_none (get_cell (gs_board gs) r c) then [(r, c)] else [])
         (seq 0 BOARD_COLS))
    (seq 0 BOARD_ROWS).

End Game.

(** ** ai.py: construction of [AIPlayer] *)

Local Open Scope string_scope.

(** [dict.get(key, default)] on a dictionary literal. *)
Fixpoint dict_get {V : Type} (d : list (string * V)) (key : string) (default : V) : V :=
  match d with
  | [] => default
  | (k, v) :: rest => if String.eqb k key then v else dict_get rest key default
  end.

(** The float literals of [mistake_map], as the rationals the doubles denote. *)
Definition float_0_4 : Q := 3602879701896397 # 9007199254740992.
Definition float_0_15 : Q := 5404319552844595 # 36028797018963968.
Definition float_0_05 : Q := 3602879701896397 # 72057594037927936.
Definition float_0_5 : Q := 1 # 2.
Definition float_0_0 : Q := 0 # 1.

Record AIPlayer : Type := mkAIPlayer {
  difficulty : string;
  max_depth : Z;
  mistake_probability : Q
}.

Definition _get_max_depth (difficulty : string) : Z :=
  dict_get [("Easy", 1%Z); ("Medium", 3%Z); ("Hard", 6%Z); ("Impossible", 9%Z)]
           difficulty 9%Z.

Definition _get_mistake_probability (difficulty : string) : Q :=
  dict_get [("Easy", float_0_4); ("Medium", float_0_15);
            ("Hard", float_0_05); ("Impossible", float_0_0)]
           difficulty float_0_0.

(** [AIPlayer.__init__]; the [board] argument is stored and never read. *)
Definition new_AIPlayer (difficulty : string) : AIPlayer :=
  mkAIPlayer difficulty (_get_max_depth difficulty) (_get_mistake_probability difficulty).

Local Close Scope string_scope.

(** ** ai.py: minimax with alpha-beta pruning *)

(** The maximizing loop of [_minimax]; [rec] is the recursive call on the
    child position with the current window. *)
Fixpoint max_loop (rec : board -> score -> score -> option score)
    (b : board) (cells : list move) (max_score alpha beta : score) : option score :=
  match cells with
  | [] => Some max_score
  | (row, col) :: rest =>
      match rec (set_cell b row col (Some O)) alpha beta with
      | None => None
      | Some s =>
          let max_score := score_max s max_score in
          let alpha := score_max alpha s in
          if score_leb beta alpha then Some max_score
          else max_loop rec b rest max_score alpha beta
      end
  end.

(** The minimizing loop of [_minimax]. *)
Fixpoint min_loop (rec : board -> score -> score -> option score)
    (b : board) (cells : list move) (min_score alpha beta : score) : option score :=
  match cells with
  | [] => Some min_score
  | (row, col) :: rest =>
      match rec (set_cell b row col (Some X)) alpha beta with
      | None => None
      | Some s =>
          let min_score := score_min s min_score in
          let beta := score_min beta s in
          if score_leb beta alpha then Some min_score
          else min_loop rec b rest min_score alpha beta
      end
  end.

(** [AIPlayer._minimax]; [None] means the fuel ran out. *)
Fixpoint _minimax (self : AIPlayer) (fuel : nat) (b : board) (depth : Z)
    (is_maximizing : bool) (alpha beta : score) : option score :=
  match fuel with
  | 0 => None
  | S fuel' =>
      match AI.check_winner b with
      | Some O => Some (Fin (10 - depth))
      | Some X => Some (Fin (depth - 10))
      | None =>
          if AI.is_board_full b then Some (Fin 0)
          else if (max_depth self <=? depth)%Z then Some (Fin 0)
          else if is_maximizing then
            max_loop (fun b' a' b'' => _minimax self fuel' b' (depth + 1) false a' b'')
                     b (AI.get_empty_cells b) NegInf alpha beta
          else
            min_loop (fun b' a' b'' => _minimax self fuel' b' (depth + 1) true a' b'')
                     b (AI.get_empty_cells b) PosInf alpha beta
      end
  end.

(** Fuel that covers every path below [b]: one call per remaining free cell
    and one for the position itself. *)
Definition search_fuel (b : board) : nat := S (length (AI.get_empty_cells b)).

(** The value of a finished call; the default is never produced, see
    [minimax_terminates]. *)
Definition run (r : option score) : score :=
  match r with Some s => s | None => NegInf end.

(** [AIPlayer._get_best_move]. *)
Definition _get_best_move (self : AIPlayer) (b : board) : option move :=
  snd (fold_left
         (fun (acc : score * option move) (rc : move) =>
            let '(best_score, best_move) := acc in
            let '(row, col) := rc in
            let temp_board := set_cell b row col (Some O) in
            let s := run (_minimax self (search_fuel temp_board) temp_board 0 false
                                   NegInf PosInf) in
            if score_ltb best_score s then (s, Some (row, col))
            else (best_score, best_move))
         (AI.get_empty_cells b)
         (NegInf, None)).

(** ** ai.py: random draws *)

(** The outcomes of the random calls one [get_move] can make:
    [random.random()] of the mistake test and of the Easy coin, each the
    numerator [k] of the double [k / 2^53], and the index behind
    [random.choice]. *)
Record draws : Type := mkDraws {
  mistake_draw : N;
  coin_draw : N;
  choice_draw : nat
}.

Definition random_value (k : N) : Q := Z.of_N k # 9007199254740992.

(** [x < y] on rationals. *)
Definition Qltb (x y : Q) : bool :=
  (Qnum x * Z.pos (Qden y) <? Qnum y * Z.pos (Qden x))%Z.

(** [random.choice(l)] on a list that is not empty. *)
Definition choice {A : Type} (k : nat) (l : list A) : option A :=
  nth_error l (k mod length l).

(** ** ai.py: the heuristic moves *)

(** [AIPlayer._get_random_move]. *)
Definition _get_random_move (gs : GameState) (d : draws) : option move :=
  match Game.get_empty_cells gs with
  | [] => None
  | empty_cells => choice (choice_draw d) empty_cells
  end.

(** The cells in the order the nested loops [for r ...: for c ...] visit them. *)
Definition all_cells : list move :=
  flat_map (fun r => map (fun c => (r, c)) (seq 0 BOARD_COLS)) (seq 0 BOARD_ROWS).

(** The loops of [_try_win_move] ([s] is ["O"]) and [_try_block_move] ([s] is
    ["X"]): the board is written in place and restored, so the loop hands
    back the board it leaves behind. *)
Fixpoint try_loop (s : mark) (b : board) (cells : list move) : option move * board :=
  match cells with
  | [] => (None, b)
  | (r, c) :: rest =>
      if is_none (get_cell b r c) then
        let b1 := set_cell b r c (Some s) in
        if cell_eqb (AI.check_winner b1) (Some s) then
          (Some (r, c), set_cell b1 r c None)
        else try_loop s (set_cell b1 r c None) rest
      else try_loop s b rest
  end.

(** [AIPlayer._try_win_move]. *)
Definition _try_win_move (gs : GameState) : option move * GameState :=
  let '(m, b) := try_loop O (gs_board gs) all_cells in (m, with_board gs b).

(** [AIPlayer._try_block_move]. *)
Definition _try_block_move (gs : GameState) : option move * GameState :=
  let '(m, b) := try_loop X (gs_board gs) all_cells in (m, with_board gs b).

(** [AIPlayer._get_strategic_move]. *)
Definition _get_strategic_move (gs : GameState) (d : draws) : option move :=
  if is_none (get_cell (gs_board gs) 1 1) then Some (1, 1)
  else
    let corners := [(0, 0); (0, 2); (2, 0); (2, 2)] in
    match filter (fun rc : move => is_none (get_cell (gs_board gs) (fst rc) (snd rc)))
                 corners with
    | (_ :: _) as empty_corners => choice (choice_draw d) empty_corners
    | [] =>
        match Game.get_empty_cells gs with
        | (_ :: _) as empty_cells => choice (choice_draw d) empty_cells
        | [] => None
        end
    end.

(** ** ai.py: [AIPlayer.get_move] *)

(** The returned move and the game state left behind. *)
Definition get_move (self : AIPlayer) (gs : GameState) (d : draws)
  : option move * GameState :=
  if Qltb (random_value (mistake_draw d)) (mistake_probability self) then
    (_get_random_move gs d, gs)
  else if String.eqb (difficulty self) "Easy" then
    let '(m, gs1) := _try_win_move gs in
    match m with
    | Some mv => (Some mv, gs1)
    | None =>
        if Qltb (random_value (coin_draw d)) float_0_5 then (_get_random_move gs1 d, gs1)
        else (_get_strategic_move gs1 d, gs1)
    end
  else if String.eqb (difficulty self) "Medium" then
    let '(m, gs1) := _try_win_move gs in
    match m with
    | Some mv => (Some mv, gs1)
    | None =>
        let '(m2, gs2) := _try_block_move gs1 in
        match m2 with
        | Some mv => (Some mv, gs2)
        | None => (_get_strategic_move gs2 d, gs2)
        end
    end
  else (_get_best_move self (gs_board gs), gs).

(** [AIPlayer.make_move]. *)
Definition AI_make_move (self : AIPlayer) (gs : GameState) (d : draws) : GameState :=
  let '(m, gs1) := get_move self gs d in
  match m with
  | Some (r, c) => with_board gs1 (set_cell (gs_board gs1) r c (Some O))
  | None => gs1
  end.

(** ** Reference notions the properties are stated against *)

(** *** The eight lines in the order [check_winner] scans them *)

Definition triple : Type := (move * move * move)%type.

Definition lines : list triple :=
  [ ((0, 0), (0, 1), (0, 2)); ((1, 0), (1, 1), (1, 2)); ((2, 0), (2, 1), (2, 2));
    ((0, 0), (1, 0), (2, 0)); ((0, 1), (1, 1), (2, 1)); ((0, 2), (1, 2), (2, 2));
    ((0, 0), (1, 1), (2, 2)); ((0, 2), (1, 1), (2, 0)) ].

Definition at_move (b : board) (m : move) : cell := get_cell b (fst m) (snd m).

(** The three cells of line [l] all hold symbol [s]. *)
Definition completed (b : board) (l : triple) (s : mark) : Prop :=
  let '(p, q, r) := l in
  at_move b p = Some s /\ at_move b q = Some s /\ at_move b r = Some s.

Definition completedb (b : board) (l : triple) (s : mark) : bool :=
  let '(p, q, r) := l in
  cell_eqb (at_move b p) (Some s) && cell_eqb (at_move b q) (Some s)
  && cell_eqb (at_move b r) (Some s).

Definition no_line (b : board) : Prop :=
  forall l s, In l lines -> ~ completed b l s.

(** The drawn board [X O X / O O X / X X O]. *)
Definition drawn_board : board :=
  [ [Some X; Some O; Some X]; [Some O; Some O; Some X]; [Some X; Some X; Some O] ].

(** The symbol of the first completed line in scan order. *)
Fixpoint first_completed (b : board) (ls : list triple) : cell :=
  match ls with
  | [] => None
  | l :: rest =>
      if completedb b l X then Some X
      else if completedb b l O then Some O
      else first_completed b rest
  end.

(** *** Legal alternating play *)

Definition in_progress (b : board) : bool :=
  is_none (AI.check_winner b) && negb (AI.is_board_full b).

(** [reachable b p]: board [b] arises from the empty board by alternating
    legal moves that stop at the first win, with [p] the side to move.
    Either side may open: [main.py] lets the opponent start on the two upper
    tiers. *)
Inductive reachable : board -> mark -> Prop :=
  | reach_start : forall p, reachable empty_board p
  | reach_move : forall b p r c,
      reachable b p ->
      AI.check_winner b = None ->
      In (r, c) (AI.get_empty_cells b) ->
      reachable (set_cell b r c (Some p)) (other p).

(** *** Minimax without pruning, with the terminal scoring of [_minimax] *)

Fixpoint ref_max_loop (rec : board -> option score)
    (b : board) (cells : list move) (max_score : score) : option score :=
  match cells with
  | [] => Some max_score
  | (row, col) :: rest =>
      match rec (set_cell b row col (Some O)) with
      | None => None
      | Some s => ref_max_loop rec b rest (score_max s max_score)
      end
  end.

Fixpoint ref_min_loop (rec : board -> option score)
    (b : board) (cells : list move) (min_score : score) : option score :=
  match cells with
  | [] => Some min_score
  | (row, col) :: rest =>
      match rec (set_cell b row col (Some X)) with
      | None => None
      | Some s => ref_min_loop rec b rest (score_min s min_score)
      end
  end.

Fixpoint minimax_ref (self : AIPlayer) (fuel : nat) (b : board) (depth : Z)
    (is_maximizing : bool) : option score :=
  match fuel with
  | 0 => None
  | S fuel' =>
      match AI.check_winner b with
      | Some O => Some (Fin (10 - depth))
      | Some X => Some (Fin (depth - 10))
      | None =>
          if AI.is_board_full b then Some (Fin 0)
          else if (max_depth self <=? depth)%Z then Some (Fin 0)
          else if is_maximizing then
            ref_max_loop (fun b' => minimax_ref self fuel' b' (depth + 1) false)
                         b (AI.get_empty_cells b) NegInf
          else
            ref_min_loop (fun b' => minimax_ref self fuel' b' (depth + 1) true)
                         b (AI.get_empty_cells b) PosInf
      end
  end.

(** The root loop of [_get_best_move] over an arbitrary scoring of the child
    positions. *)
Definition best_move_by (score_of : board -> score) (b : board) : option move :=
  snd (fold_left
         (fun (acc : score * option move) (rc : move) =>
            let '(best_score, best_move) := acc in
            let '(row, col) := rc in
            let s := score_of (set_cell b row col (Some O)) in
            if score_ltb best_score s then (s, Some (row, col))
            else (best_score, best_move))
         (AI.get_empty_cells b)
         (NegInf, None)).

(** The score [_get_best_move] gives a child position, and the unpruned one. *)
Definition root_score (self : AIPlayer) (b : board) : score :=
  run (_minimax self (search_fuel b) b 0 false NegInf PosInf).

Definition root_score_ref (self : AIPlayer) (b : board) : score :=
  run (minimax_ref self (search_fuel b) b 0 false).

Definition best_move_ref (self : AIPlayer) (b : board) : option move :=
  best_move_by (root_score_ref self) b.

(** *** Play against the engine *)

Definition Impossible : AIPlayer := new_AIPlayer "Impossible".

(** [existsb] and [forallb] that stop at the first decisive element. *)
Fixpoint any_move (f : move -> bool) (l : list move) : bool :=
  match l with
  | [] => false
  | m :: rest => if f m then true else any_move f rest
  end.

Fixpoint every_move (f : move -> bool) (l : list move) : bool :=
  match l with
  | [] => true
  | m :: rest => if f m then every_move f rest else false
  end.

(** [can_hold n p b]: with [p] to move on [b], the opponent ["O"] can keep
    ["X"] from ever completing a line, whatever ["X"] plays; [n] bounds the
    number of moves looked ahead. *)
Fixpoint can_hold (n : nat) (p : mark) (b : board) : bool :=
  match AI.check_winner b with
  | Some X => false
  | Some O => true
  | None =>
      if AI.is_board_full b then true
      else
        match n with
        | 0 => true
        | S n' =>
            match p with
            | O => any_move (fun rc => can_hold n' X (set_cell b (fst rc) (snd rc) (Some O)))
                            (AI.get_empty_cells b)
            | X => every_move (fun rc => can_hold n' O (set_cell b (fst rc) (snd rc) (Some X)))
                              (AI.get_empty_cells b)
            end
        end
  end.

(** Nine moves fill any board. *)
Definition not_lost (b : board) : bool := can_hold 9 O b.

(** A reply of ["X"] is optimal when no other reply has a lower unpruned
    minimax value. *)
Definition reply_value (self : AIPlayer) (b : board) (m : move) : score :=
  let child := set_cell b (fst m) (snd m) (Some X) in
  run (minimax_ref self (search_fuel child) child 0 true).

Definition optimal_reply (self : AIPlayer) (b : board) (m : move) : Prop :=
  forall m', In m' (AI.get_empty_cells b) ->
             score_leb (reply_value self b m) (reply_value self b m') = true.

(** No restriction on the replies of ["X"] beyond legality. *)
Definition any_reply (b : board) (m : move) : Prop := True.

(** [engine_play ok b0 b p]: position [b] with [p] to move arises from [b0]
    with ["O"] to move when every ["O"] move is the one [get_move] returns on
    the Impossible tier and ["X"] answers with legal moves that [ok] admits. *)
Inductive engine_play (ok : board -> move -> Prop) (b0 : board) : board -> mark -> Prop :=
  | play_start : engine_play ok b0 b0 O
  | play_engine : forall b gs d r c,
      engine_play ok b0 b O ->
      in_progress b = true ->
      gs_board gs = b ->
      fst (get_move Impossible gs d) = Some (r, c) ->
      engine_play ok b0 (set_cell b r c (Some O)) X
  | play_player : forall b r c,
      engine_play ok b0 b X ->
      in_progress b = true ->
      In (r, c) (AI.get_empty_cells b) ->
      ok b (r, c) ->
      engine_play ok b0 (set_cell b r c (Some X)) O.

(** A position that legal play reaches and in which ["O"], to move, faces two
    open lines of ["X"]. *)
Definition lost_board : board :=
  [ [Some X; Some O; None]; [Some X; Some X; None]; [None; None; Some O] ].

(** *** Enumeration of the 3x3 boards *)

Definition all_cell_values : list cell := [None; Some X; Some O].

Definition all_rows : list (list cell) :=
  flat_map (fun a => flat_map (fun b => map (fun c => [a; b; c]) all_cell_values)
                              all_cell_values)
           all_cell_values.

(** [P] holds of every board built from three rows of three cells. *)
Definition forall_boards (P : board -> bool) : bool :=
  forallb
    (fun r0 => forallb (fun r1 => forallb (fun r2 => P [r0; r1; r2]) all_rows) all_rows)
    all_rows.

(** *** Sample positions *)

Definition o_row_board : board :=
  [ [Some O; Some O; Some O]; [Some X; Some X; None]; [Some X; None; None] ].

Definition x_row_full_board : board :=
  [ [Some X; Some X; Some X]; [Some O; Some O; Some X]; [Some O; Some X; Some O] ].

Definition x_column_board : board :=
  [ [Some O; Some X; None]; [Some O; Some X; None]; [None; Some X; None] ].

Definition o_threat_board : board :=
  [ [Some O; Some O; None]; [Some X; Some X; None]; [None; None; None] ].

(** *** Checks run over all 3x3 boards *)

(** Both winner checks return the first completed line. *)
Definition winners_agree (b : board) : bool :=
  cell_eqb (AI.check_winner b) (first_completed b lines)
  && cell_eqb (option_map fst (Game.find_winner b)) (first_completed b lines).

(** Marking a free cell leaves exactly one free cell less. *)
Definition empties_shrink (b : board) : bool :=
  forallb
    (fun rc : move =>
       (S (length (AI.get_empty_cells (set_cell b (fst rc) (snd rc) (Some X))))
        =? length (AI.get_empty_cells b))
       && (S (length (AI.get_empty_cells (set_cell b (fst rc) (snd rc) (Some O))))
           =? length (AI.get_empty_cells b)))
    (AI.get_empty_cells b).

(** A board has a free cell exactly when it is not full. *)
Definition full_iff_no_empties (b : board) : bool :=
  Bool.eqb (AI.is_board_full b)
           (match AI.get_empty_cells b with [] => true | _ => false end).

(** From a position ["O"] can hold, the engine's move is a free cell and
    leaves a position ["O"] can hold. *)
Definition engine_step_ok (b : board) : bool :=
  if in_progress b then
    if can_hold 9 O b then
      match _get_best_move Impossible b with
      | Some (r, c) =>
          if existsb (fun m : move => (fst m =? r) && (snd m =? c)) (AI.get_empty_cells b)
          then can_hold 9 X (set_cell b r c (Some O))
          else false
      | None => false
      end
    else true
  else true.

(** From a position ["O"] can hold with ["X"] to move, every reply leaves a
    position ["O"] can hold. *)
Definition player_step_ok (b : board) : bool :=
  if in_progress b then
    if can_hold 9 X b then
      every_move (fun rc => can_hold 9 O (set_cell b (fst rc) (snd rc) (Some X)))
                 (AI.get_empty_cells b)
    else true
  else true.

(** *** The recursive calls of the search *)

(** [search_call self (b, depth, m) (b', depth', m')]: the call of [_minimax]
    on [b] at [depth] passes the terminal tests and may call itself on [b']. *)
Inductive search_call (self : AIPlayer) : board * Z * bool -> board * Z * bool -> Prop :=
  | search_call_child : forall b depth is_maximizing r c,
      AI.check_winner b = None ->
      AI.is_board_full b = false ->
      (depth < max_depth self)%Z ->
      In (r, c) (AI.get_empty_cells b) ->
      search_call self (b, depth, is_maximizing)
                  (set_cell b r c (Some (if is_maximizing then O else X)),
                   (depth + 1)%Z, negb is_maximizing).

(** *** What a pruned call may return *)

(** [window_sound alpha beta v t]: [v], returned for the window
    [(alpha, beta)], stands for the unpruned value [t]: it is [t] when it lies
    inside the window, an upper bound of [t] when it is at or below [alpha],
    and a lower bound of [t] when it is at or above [beta]. *)
Definition window_sound (alpha beta v t : score) : Prop :=
  (score_leb v alpha = true -> score_leb t v = true)
  /\ (score_leb beta v = true -> score_leb v t = true)
  /\ (score_ltb alpha v = true -> score_ltb v beta = true -> t = v).

(** ** ai.py: the mutating helpers of [AIPlayer] *)

(** [game_state.board[move[0]][move[1]] = "O"] behind [if move:]. *)
Definition place_O (gs : GameState) (m : option move) : GameState :=
  match m with
  | Some (r, c) => with_board gs (set_cell (gs_board gs) r c (Some O))
  | None => gs
  end.

(** [AIPlayer._make_random_move]. *)
Definition _make_random_move (gs : GameState) (d : draws) : GameState :=
  place_O gs (_get_random_move gs d).

(** [AIPlayer._make_strategic_move]. *)
Definition _make_strategic_move (gs : GameState) (d : draws) : GameState :=
  place_O gs (_get_strategic_move gs d).

(** [AIPlayer._try_win]: the returned flag and the state left behind. *)
Definition _try_win (gs : GameState) : bool * GameState :=
  let '(m, gs1) := _try_win_move gs in
  match m with
  | Some _ => (true, place_O gs1 m)
  | None => (false, gs1)
  end.

(** [AIPlayer._try_block]. *)
Definition _try_block (gs : GameState) : bool * GameState :=
  let '(m, gs1) := _try_block_move gs in
  match m with
  | Some _ => (true, place_O gs1 m)
  | None => (false, gs1)
  end.

(** ** game_logic.py: [GameState.reset] and [Statistics] *)


Record Statistics : Type := mkStatistics {
  player_wins : Z;
  ai_wins : Z;
  draws_count : Z;
  total_games : Z;
  win_streak : Z;
  best_streak : Z;
  total_time_played : Q
}.

Module Stats.

(** [Statistics.__init__]. *)
Definition init : Statistics := mkStatistics 0 0 0 0 0 0 0%Q.

(** [Statistics.record_win]. *)
Definition record_win (st : Statistics) (winner : cell) : Statistics :=
  let total := (total_games st + 1)%Z in
  match winner with
  | Some X =>
      let streak := (win_streak st + 1)%Z in
      mkStatistics (player_wins st + 1)%Z (ai_wins st) (draws_count st) total streak
                   (if (best_streak st <? streak)%Z then streak else best_streak st)
                   (total_time_played st)
  | Some O =>
      mkStatistics (player_wins st) (ai_wins st + 1)%Z (draws_count st) total 0%Z
                   (best_streak st) (total_time_played st)
  | None =>
      mkStatistics (player_wins st) (ai_wins st) (draws_count st + 1)%Z total
                   (win_streak st) (best_streak st) (total_time_played st)
  end.

(** [Statistics.reset]. *)
Definition reset (st : Statistics) : Statistics := mkStatistics 0 0 0 0 0 0 0%Q.

End Stats.

(** ** constants.py and renderer.py: the pixel geometry *)

Definition CELL_SIZE : Z := (WIDTH / Z.of_nat BOARD_COLS)%Z.
Definition BOARD_PIXEL_HEIGHT : Z := (CELL_SIZE * Z.of_nat BOARD_ROWS)%Z.



Module Render.


(** [Renderer.get_clicked_cell]. *)
Definition get_clicked_cell (pos : Z * Z) : option Z * option Z :=
  let '(mouse_x, mouse_y) := pos in
  if (mouse_y <? BOARD_PIXEL_HEIGHT)%Z then
    (Some (mouse_y / CELL_SIZE)%Z, Some (mouse_x / CELL_SIZE)%Z)
  else (None, None).

End Render.

(** ** main.py: the session and its event handlers

    The renderer calls only draw.  [make_ai_move] starts a thread; here the
    body of that thread runs to its end before the handler returns. *)

Record Session : Type := mkSession {
  s_game_state : GameState;
  s_statistics : Statistics;
  s_difficulty : option string;
  s_ai_player : option AIPlayer;
  s_in_menu : bool;
  s_ai_thinking : bool
}.


Inductive key : Type := K_r | K_m | K_ESCAPE | K_other.



Module App.

(** [Game.__init__]. *)
Definition init (now : Q) : Session :=
  mkSession (Game.init now) Stats.init None None true false.










End App.

(** ** Reference notions for the added properties *)

(** The streak of player wins at the end of a history, newest outcome first:
    a win of ["O"] ends it, a draw does not. *)
Fixpoint streak_of (history : list cell) : Z :=
  match history with
  | [] => 0%Z
  | Some X :: older => (streak_of older + 1)%Z
  | Some O :: _ => 0%Z
  | None :: older => streak_of older
  end.

(** The longest such streak at any time of the history. *)
Fixpoint longest_streak (history : list cell) : Z :=
  match history with
  | [] => 0%Z
  | _ :: older => Z.max (streak_of history) (longest_streak older)
  end.

Definition count_outcome (w : cell) (history : list cell) : Z :=
  Z.of_nat (length (filter (cell_eqb w) history)).

(** The statistics after the outcomes of [history], oldest first. *)
Definition record_all (st : Statistics) (outcomes : list cell) : Statistics :=
  fold_left Stats.record_win outcomes st.

(** The pixel at the middle of a cell. *)
Definition cell_center (m : move) : Z * Z :=
  ((Z.of_nat (snd m) * CELL_SIZE + CELL_SIZE / 2)%Z,
   (Z.of_nat (fst m) * CELL_SIZE + CELL_SIZE / 2)%Z).

(** Point [p] lies on the segment that [l] describes. *)
Definition on_segment (l : line) (p : Z * Z) : bool :=
  let '(x1, y1, x2, y2) := l in
  let '(x, y) := p in
  (((x - x1) * (y2 - y1) =? (y - y1) * (x2 - x1))
   && (Z.min x1 x2 <=? x) && (x <=? Z.max x1 x2)
   && (Z.min y1 y2 <=? y) && (y <=? Z.max y1 y2))%Z%bool.

(** The highlight stored for a board runs through the three cells of a line
    completed by the returned symbol. *)
Definition highlight_ok (b : board) : bool :=
  match Game.find_winner b with
  | None => true
  | Some (s, l) =>
      existsb
        (fun t : triple =>
           let '(p, q, r) := t in
           completedb b t s
           && on_segment l (cell_center p) && on_segment l (cell_center q)
           && on_segment l (cell_center r))
        lines
  end.

(** The score [_get_best_move] compares for root move [m] under scoring [f]. *)
Definition child_score (f : board -> score) (b : board) (m : move) : score :=
  f (set_cell b (fst m) (snd m) (Some O)).

(** One turn of the root loop of [_get_best_move]. *)
Definition best_step (f : board -> score) (b : board)
    (acc : score * option move) (rc : move) : score * option move :=
  if score_ltb (fst acc) (child_score f b rc) then (child_score f b rc, Some rc) else acc.

(** [m] is the first move of [cells] with the highest score. *)
Definition first_best (f : board -> score) (b : board) (cells : list move) (m : move) : Prop :=
  exists before after,
    cells = before ++ m :: after
    /\ (forall m', In m' before -> score_ltb (child_score f b m') (child_score f b m) = true)
    /\ (forall m', In m' after -> score_leb (child_score f b m') (child_score f b m) = true).

(** The four corners in the order [_get_strategic_move] lists them. *)
Definition corners : list move := [(0, 0); (0, 2); (2, 0); (2, 2)].

(** Symbol [s] wins at once by marking the free cell [m]. *)
Definition wins_at (b : board) (s : mark) (m : move) : Prop :=
  In m (AI.get_empty_cells b)
  /\ AI.check_winner (set_cell b (fst m) (snd m) (Some s)) = Some s.

(** [gs'] is [gs] with one free cell marked ["O"], or [gs] itself when no
    cell is free. *)
Definition places_one_O (gs gs' : GameState) : Prop :=
  (AI.get_empty_cells (gs_board gs) = [] /\ gs' = gs)
  \/ (exists r c,
         In (r, c) (AI.get_empty_cells (gs_board gs))
         /\ gs' = with_board gs (set_cell (gs_board gs) r c (Some O))).

Definition corner_board : board :=
  [ [Some X; None; Some O]; [None; Some X; None]; [Some O; None; None] ].

(** ** Reference notions for the session *)

(** How often symbol [s] stands on the board. *)
Definition count_mark (s : mark) (b : board) : nat :=
  length (filter (cell_eqb (Some s)) (concat b)).






(** Every cell of a 3x3 board is free or holds one of the two symbols. *)
Definition cells_add_up (b : board) : bool :=
  length (AI.get_empty_cells b) + count_mark X b + count_mark O b =? 9.

(** * Properties *)

(** ** Boards of the right shape *)

Lemma wf_board_shape (b : board) :
  wf_board b ->
  exists c00 c01 c02 c10 c11 c12 c20 c21 c22,
    b = [ [c00; c01; c02]; [c10; c11; c12]; [c20; c21; c22] ].
Proof.
  intros [Hlen Hrows].
  destruct b as [|r0 [|r1 [|r2 [|r3 b]]]]; try discriminate Hlen.
  inversion Hrows as [|? ? H0 Hrows1]; subst.
  inversion Hrows1 as [|? ? H1 Hrows2]; subst.
  inversion Hrows2 as [|? ? H2 _]; subst.
  destruct r0 as [|a0 [|a1 [|a2 [|? ?]]]]; try discriminate H0.
  destruct r1 as [|b0 [|b1 [|b2 [|? ?]]]]; try discriminate H1.
  destruct r2 as [|d0 [|d1 [|d2 [|? ?]]]]; try discriminate H2.
  now exists a0, a1, a2, b0, b1, b2, d0, d1, d2.
Qed.

Lemma wf_board_grid (c00 c01 c02 c10 c11 c12 c20 c21 c22 : cell) :
  wf_board [ [c00; c01; c02]; [c10; c11; c12]; [c20; c21; c22] ].
Proof. split; [reflexivity | repeat constructor]. Qed.

Lemma wf_empty_board : wf_board empty_board.
Proof. apply wf_board_grid. Qed.

Ltac grid b H :=
  let c00 := fresh "c00" in let c01 := fresh "c01" in let c02 := fresh "c02" in
  let c10 := fresh "c10" in let c11 := fresh "c11" in let c12 := fresh "c12" in
  let c20 := fresh "c20" in let c21 := fresh "c21" in let c22 := fresh "c22" in
  destruct (wf_board_shape b H)
    as (c00 & c01 & c02 & c10 & c11 & c12 & c20 & c21 & c22 & ->).

Lemma in_all_cell_values (a : cell) : In a all_cell_values.
Proof. destruct a as [[|]|]; simpl; auto. Qed.

Lemma in_all_rows (a b c : cell) : In [a; b; c] all_rows.
Proof.
  unfold all_rows.
  apply in_flat_map; exists a; split; [apply in_all_cell_values|].
  apply in_flat_map; exists b; split; [apply in_all_cell_values|].
  apply in_map_iff; exists c; split; [reflexivity | apply in_all_cell_values].
Qed.

Lemma forall_boards_sound (P : board -> bool) :
  forall_boards P = true -> forall b, wf_board b -> P b = true.
Proof.
  unfold forall_boards; intros HP b Hb; grid b Hb.
  rewrite forallb_forall in HP.
  specialize (HP _ (in_all_rows c00 c01 c02)); rewrite forallb_forall in HP.
  specialize (HP _ (in_all_rows c10 c11 c12)); rewrite forallb_forall in HP.
  exact (HP _ (in_all_rows c20 c21 c22)).
Qed.

Lemma in_all_cells (r c : nat) : r < 3 -> c < 3 -> In (r, c) all_cells.
Proof.
  intros Hr Hc.
  destruct r as [|[|[|r]]]; try lia; destruct c as [|[|[|c]]]; try lia;
    simpl; auto 10.
Qed.

Lemma in_empty_cells (b : board) (r c : nat) :
  In (r, c) (AI.get_empty_cells b) <-> r < 3 /\ c < 3 /\ get_cell b r c = None.
Proof.
  unfold AI.get_empty_cells; rewrite in_flat_map; split.
  - intros (r' & Hr & Hin); apply in_flat_map in Hin as (c' & Hc & Hin).
    apply in_seq in Hr; apply in_seq in Hc; unfold BOARD_ROWS, BOARD_COLS in *.
    destruct (get_cell b r' c') eqn:E; simpl in Hin; [contradiction|].
    destruct Hin as [Heq|[]]; inversion Heq; subst; repeat split; auto; lia.
  - intros (Hr & Hc & Hnone); exists r; split; [apply in_seq; unfold BOARD_ROWS; lia|].
    apply in_flat_map; exists c; split; [apply in_seq; unfold BOARD_COLS; lia|].
    rewrite Hnone; simpl; auto.
Qed.

Lemma wf_set_cell (b : board) (r c : nat) (v : cell) :
  wf_board b -> wf_board (set_cell b r c v).
Proof.
  intros Hb; grid b Hb.
  destruct r as [|[|[|r]]]; destruct c as [|[|[|c]]]; apply wf_board_grid.
Qed.

Lemma get_set_same (b : board) (r c : nat) (v : cell) :
  wf_board b -> r < 3 -> c < 3 -> get_cell (set_cell b r c v) r c = v.
Proof.
  intros Hb Hr Hc; grid b Hb.
  destruct r as [|[|[|r]]]; try lia; destruct c as [|[|[|c]]]; try lia; reflexivity.
Qed.

Lemma get_set_other (b : board) (r c r' c' : nat) (v : cell) :
  wf_board b -> (r', c') <> (r, c) -> get_cell (set_cell b r c v) r' c' = get_cell b r' c'.
Proof.
  intros Hb Hne; grid b Hb.
  destruct r as [|[|[|r]]]; destruct c as [|[|[|c]]];
    destruct r' as [|[|[|r']]]; destruct c' as [|[|[|c']]];
    try reflexivity; try (exfalso; apply Hne; reflexivity);
    unfold get_cell, set_cell; simpl;
    repeat (match goal with |- context [nth ?n [] _] => destruct n end); reflexivity.
Qed.

Lemma set_cell_restore (b : board) (r c : nat) (v : cell) :
  wf_board b -> r < 3 -> c < 3 ->
  set_cell (set_cell b r c v) r c (get_cell b r c) = b.
Proof.
  intros Hb Hr Hc; grid b Hb.
  destruct r as [|[|[|r]]]; try lia; destruct c as [|[|[|c]]]; try lia; reflexivity.
Qed.

(** ** Terminal scoring of the search *)

(** C3: [_minimax] tests the terminal conditions in a fixed order.  A board
    won by ["O"] scores [10 - depth] and a board won by ["X"] scores
    [depth - 10], whether or not the board is full or the depth is exhausted;
    a full board without a winner scores [0] whatever the depth; a board that
    is neither won nor full scores [0] once [depth >= max_depth]. *)
Theorem minimax_terminal_scores (self : AIPlayer) (fuel : nat) (b : board) (depth : Z)
    (is_maximizing : bool) (alpha beta : score) :
  (AI.check_winner b = Some O ->
   _minimax self (S fuel) b depth is_maximizing alpha beta = Some (Fin (10 - depth))) /\
  (AI.check_winner b = Some X ->
   _minimax self (S fuel) b depth is_maximizing alpha beta = Some (Fin (depth - 10))) /\
  (AI.check_winner b = None -> AI.is_board_full b = true ->
   _minimax self (S fuel) b depth is_maximizing alpha beta = Some (Fin 0)) /\
  (AI.check_winner b = None -> AI.is_board_full b = false ->
   (max_depth self <= depth)%Z ->
   _minimax self (S fuel) b depth is_maximizing alpha beta = Some (Fin 0)).
Proof.
  repeat split.
  - intros Hw; simpl; now rewrite Hw.
  - intros Hw; simpl; now rewrite Hw.
  - intros Hw Hfull; simpl; now rewrite Hw, Hfull.
  - intros Hw Hfull Hdepth; simpl; rewrite Hw, Hfull.
    apply Z.leb_le in Hdepth; now rewrite Hdepth.
Qed.

Lemma minimax_terminal_scores_witness :
  _minimax Impossible 1 o_row_board 3 true NegInf PosInf = Some (Fin 7)
  /\ _minimax Impossible 1 x_row_full_board 12 false NegInf PosInf = Some (Fin 2)
  /\ _minimax Impossible 1 drawn_board 2 true NegInf PosInf = Some (Fin 0)
  /\ _minimax Impossible 1 empty_board 9 false NegInf PosInf = Some (Fin 0).
Proof.
  split; [|split; [|split]].
  - apply (proj1 (minimax_terminal_scores Impossible 0 o_row_board 3 true NegInf PosInf)).
    reflexivity.
  - apply (proj1 (proj2
      (minimax_terminal_scores Impossible 0 x_row_full_board 12 false NegInf PosInf))).
    reflexivity.
  - apply (proj1 (proj2 (proj2
      (minimax_terminal_scores Impossible 0 drawn_board 2 true NegInf PosInf))));
      reflexivity.
  - apply (proj2 (proj2 (proj2
      (minimax_terminal_scores Impossible 0 empty_board 9 false NegInf PosInf))));
      [reflexivity | reflexivity | change (9 <= 9)%Z; lia].
Defined.

(** ** The search reads the tier only through [max_depth] *)

Lemma max_loop_ext (rec rec' : board -> score -> score -> option score) :
  (forall b a c, rec b a c = rec' b a c) ->
  forall b cells m a c, max_loop rec b cells m a c = max_loop rec' b cells m a c.
Proof.
  intros Hrec b cells; induction cells as [|[r col] rest IH]; intros m a c; simpl.
  - reflexivity.
  - rewrite Hrec; destruct (rec' _ a c); [|reflexivity].
    destruct (score_leb c (score_max a s)); [reflexivity | apply IH].
Qed.

Lemma min_loop_ext (rec rec' : board -> score -> score -> option score) :
  (forall b a c, rec b a c = rec' b a c) ->
  forall b cells m a c, min_loop rec b cells m a c = min_loop rec' b cells m a c.
Proof.
  intros Hrec b cells; induction cells as [|[r col] rest IH]; intros m a c; simpl.
  - reflexivity.
  - rewrite Hrec; destruct (rec' _ a c); [|reflexivity].
    destruct (score_leb (score_min c s) a); [reflexivity | apply IH].
Qed.

Lemma minimax_same_depth (self self' : AIPlayer) :
  max_depth self = max_depth self' ->
  forall fuel b depth is_max alpha beta,
    _minimax self fuel b depth is_max alpha beta
    = _minimax self' fuel b depth is_max alpha beta.
Proof.
  intros Hd fuel; induction fuel as [|fuel IH]; intros b depth is_max alpha beta; simpl.
  - reflexivity.
  - rewrite Hd.
    destruct (AI.check_winner b) as [[|]|]; try reflexivity.
    destruct (AI.is_board_full b); [reflexivity|].
    destruct (max_depth self' <=? depth)%Z; [reflexivity|].
    destruct is_max.
    + apply max_loop_ext; intros; apply IH.
    + apply min_loop_ext; intros; apply IH.
Qed.

Lemma best_move_by_ext (f g : board -> score) (b : board) :
  (forall r c, In (r, c) (AI.get_empty_cells b) ->
     f (set_cell b r c (Some O)) = g (set_cell b r c (Some O))) ->
  best_move_by f b = best_move_by g b.
Proof.
  unfold best_move_by; generalize (NegInf, @None move).
  induction (AI.get_empty_cells b) as [|[r c] rest IH]; intros acc Hfg; simpl.
  - reflexivity.
  - destruct acc as [bs bm]; rewrite (Hfg r c (or_introl eq_refl)).
    apply IH; intros; apply Hfg; simpl; auto.
Qed.

Lemma get_best_move_unfold (self : AIPlayer) (b : board) :
  _get_best_move self b = best_move_by (root_score self) b.
Proof. reflexivity. Qed.

Lemma get_best_move_same_depth (self self' : AIPlayer) (b : board) :
  max_depth self = max_depth self' -> _get_best_move self b = _get_best_move self' b.
Proof.
  intros Hd; rewrite !get_best_move_unfold; apply best_move_by_ext; intros r c _.
  unfold root_score; now rewrite (minimax_same_depth self self' Hd).
Qed.

(** ** Tier dispatch *)

Lemma no_mistake_at_zero (k : N) : Qltb (random_value k) float_0_0 = false.
Proof. unfold Qltb, random_value, float_0_0; simpl; apply Z.ltb_ge; lia. Qed.

Lemma get_move_impossible (gs : GameState) (d : draws) :
  get_move Impossible gs d = (_get_best_move Impossible (gs_board gs), gs).
Proof.
  unfold get_move; change (mistake_probability Impossible) with float_0_0.
  now rewrite no_mistake_at_zero.
Qed.

(** C9: a difficulty string outside the four tier names gives an engine with
    [max_depth = 9] and [mistake_probability = 0.0] whose [get_move] takes the
    minimax branch, returning what the Impossible tier returns and leaving the
    state as it was. *)
Theorem unknown_tier_is_impossible (d : string) :
  d <> "Easy"%string -> d <> "Medium"%string ->
  d <> "Hard"%string -> d <> "Impossible"%string ->
  max_depth (new_AIPlayer d) = 9%Z
  /\ mistake_probability (new_AIPlayer d) = float_0_0
  /\ forall gs dr,
       get_move (new_AIPlayer d) gs dr = (_get_best_move (new_AIPlayer d) (gs_board gs), gs)
       /\ get_move (new_AIPlayer d) gs dr = get_move Impossible gs dr.
Proof.
  intros HE HM HH HI.
  assert (Hdepth : max_depth (new_AIPlayer d) = 9%Z).
  { unfold new_AIPlayer, _get_max_depth; cbn [max_depth dict_get].
    rewrite !(proj2 (String.eqb_neq _ _)) by congruence; reflexivity. }
  assert (Hprob : mistake_probability (new_AIPlayer d) = float_0_0).
  { unfold new_AIPlayer, _get_mistake_probability; cbn [mistake_probability dict_get].
    rewrite !(proj2 (String.eqb_neq _ _)) by congruence; reflexivity. }
  split; [exact Hdepth|]; split; [exact Hprob|]; intros gs dr.
  assert (Hmove : get_move (new_AIPlayer d) gs dr
                  = (_get_best_move (new_AIPlayer d) (gs_board gs), gs)).
  { unfold get_move; rewrite Hprob, no_mistake_at_zero.
    change (difficulty (new_AIPlayer d)) with d.
    rewrite !(proj2 (String.eqb_neq _ _)) by congruence; reflexivity. }
  split; [exact Hmove|].
  rewrite Hmove, get_move_impossible; f_equal.
  apply get_best_move_same_depth; now rewrite Hdepth.
Qed.

Lemma unknown_tier_is_impossible_witness :
  max_depth (new_AIPlayer "Nightmare") = 9%Z
  /\ mistake_probability (new_AIPlayer "Nightmare") = float_0_0
  /\ forall gs dr,
       get_move (new_AIPlayer "Nightmare") gs dr
       = (_get_best_move (new_AIPlayer "Nightmare") (gs_board gs), gs)
       /\ get_move (new_AIPlayer "Nightmare") gs dr = get_move Impossible gs dr.
Proof.
  apply (unknown_tier_is_impossible "Nightmare"); discriminate.
Defined.

(** ** The opening move *)

(** C4, as the code has it: on the empty board the Impossible tier returns
    the corner [(0, 0)].  Every opening scores [0], and the root loop keeps
    the first cell of the row-major order among equal scores. *)
Theorem impossible_opening_move (now : Q) (d : draws) :
  fst (get_move Impossible (Game.init now) d) = Some (0, 0)
  /\ map (fun rc : move =>
            root_score Impossible (set_cell empty_board (fst rc) (snd rc) (Some O)))
         (AI.get_empty_cells empty_board)
     = repeat (Fin 0) 9.
Proof.
  split.
  - rewrite get_move_impossible; simpl fst; simpl gs_board. vm_compute. reflexivity.
  - vm_compute. reflexivity.
Qed.

(** C4 as it is worded fails: the move returned on the empty board is not the
    centre. *)
Lemma impossible_opening_not_center :
  fst (get_move Impossible (Game.init 0) (mkDraws 0 0 0)) <> Some (1, 1).
Proof. vm_compute. discriminate. Qed.

(** ** [GameState.make_move] *)

Lemma make_move_guard (gs : GameState) (row col : Z) :
  ((0 <=? row)%Z && (row <? Z.of_nat BOARD_ROWS)%Z
   && ((0 <=? col)%Z && (col <? Z.of_nat BOARD_COLS)%Z)
   && is_none (get_cell (gs_board gs) (Z.to_nat row) (Z.to_nat col)))%bool = true
  <-> (0 <= row < 3)%Z /\ (0 <= col < 3)%Z
      /\ get_cell (gs_board gs) (Z.to_nat row) (Z.to_nat col) = None.
Proof.
  unfold BOARD_ROWS, BOARD_COLS.
  rewrite !andb_true_iff, !Z.leb_le, !Z.ltb_lt.
  change (Z.of_nat 3) with 3%Z.
  destruct (get_cell (gs_board gs) (Z.to_nat row) (Z.to_nat col)); simpl;
    intuition (try discriminate; try lia).
Qed.

(** C10: [make_move] returns [True] exactly when the coordinates are on the
    board and the cell is free.  A successful call writes the current player's
    symbol into that cell and into no other and keeps the current player; a
    failed call leaves the whole state as it was. *)
Theorem make_move_atomic (gs : GameState) (row col : Z) (now1 now2 : Q) :
  wf_board (gs_board gs) ->
  let res := Game.make_move gs row col now1 now2 in
  let r := Z.to_nat row in
  let c := Z.to_nat col in
  (fst res = true <->
   (0 <= row < 3)%Z /\ (0 <= col < 3)%Z /\ get_cell (gs_board gs) r c = None)
  /\ (fst res = true ->
      get_cell (gs_board (snd res)) r c = Some (gs_player gs)
      /\ (forall r' c', (r', c') <> (r, c) ->
            get_cell (gs_board (snd res)) r' c' = get_cell (gs_board gs) r' c')
      /\ gs_player (snd res) = gs_player gs)
  /\ (fst res = false -> snd res = gs).
Proof.
  intros Hwf res r c; subst res r c; unfold Game.make_move.
  pose proof (make_move_guard gs row col) as Hguard.
  destruct ((0 <=? row)%Z && (row <? Z.of_nat BOARD_ROWS)%Z
            && ((0 <=? col)%Z && (col <? Z.of_nat BOARD_COLS)%Z)
            && is_none (get_cell (gs_board gs) (Z.to_nat row) (Z.to_nat col)))%bool
    eqn:Hcond; cbn [fst snd gs_board gs_player].
  - split; [split; [intros _; now apply Hguard | reflexivity]|].
    split; [|discriminate].
    intros _; destruct (proj1 Hguard eq_refl) as (Hr & Hc & _).
    split; [apply get_set_same; auto; lia|].
    split; [|reflexivity].
    intros r' c' Hne; now apply get_set_other.
  - split; [split; [discriminate|]|].
    + intros H; apply Hguard in H; discriminate.
    + split; [discriminate | reflexivity].
Qed.

Lemma make_move_atomic_witness :
  fst (Game.make_move (Game.init 0) 1 2 1 2) = true
  /\ get_cell (gs_board (snd (Game.make_move (Game.init 0) 1 2 1 2))) 1 2 = Some X
  /\ snd (Game.make_move (Game.init 0) 3 (-1) 1 2) = Game.init 0.
Proof.
  pose proof (make_move_atomic (Game.init 0) 1 2 1 2 wf_empty_board) as H1.
  pose proof (make_move_atomic (Game.init 0) 3 (-1) 1 2 wf_empty_board) as H2.
  cbv zeta in H1, H2.
  destruct H1 as (Hiff & Hok & _); destruct H2 as (_ & _ & Hfail).
  assert (Htrue : fst (Game.make_move (Game.init 0) 1 2 1 2) = true).
  { apply Hiff; repeat split; try lia; reflexivity. }
  split; [exact Htrue|]; split.
  - exact (proj1 (Hok Htrue)).
  - apply Hfail; reflexivity.
Defined.

(** ** Winner detection *)

Lemma cell_eqb_eq (a b : cell) : cell_eqb a b = true <-> a = b.
Proof. destruct a as [[|]|], b as [[|]|]; simpl; split; congruence. Qed.

Lemma completedb_spec (b : board) (l : triple) (s : mark) :
  completedb b l s = true <-> completed b l s.
Proof.
  destruct l as [[p q] r]; unfold completedb, completed.
  rewrite !andb_true_iff, !cell_eqb_eq; tauto.
Qed.

Lemma first_completed_hit (b : board) (ls : list triple) :
  forall i l s,
    nth_error ls i = Some l ->
    completed b l s ->
    (forall j l' s', j < i -> nth_error ls j = Some l' -> ~ completed b l' s') ->
    first_completed b ls = Some s.
Proof.
  induction ls as [|l0 rest IH]; intros i l s Hnth Hdone Hfirst.
  - destruct i; discriminate.
  - destruct i as [|i]; simpl in *.
    + inversion Hnth; subst l0.
      apply completedb_spec in Hdone.
      destruct s; [now rewrite Hdone|].
      rewrite Hdone.
      destruct (completedb b l X) eqn:EX; [|reflexivity].
      apply completedb_spec in EX; destruct l as [[p q] r].
      apply completedb_spec in Hdone; destruct EX as [EX _], Hdone as [EO _].
      congruence.
    + assert (Hno : forall s', completedb b l0 s' = false).
      { intros s'; destruct (completedb b l0 s') eqn:E; [|reflexivity].
        apply completedb_spec in E; exfalso.
        apply (Hfirst 0 l0 s'); [lia | reflexivity | exact E]. }
      rewrite !Hno; apply (IH i l s); auto.
      intros j l' s' Hj; apply (Hfirst (S j)); lia.
Qed.

Lemma first_completed_none (b : board) (ls : list triple) :
  (forall l s, In l ls -> ~ completed b l s) -> first_completed b ls = None.
Proof.
  induction ls as [|l0 rest IH]; intros Hno; simpl; [reflexivity|].
  assert (Hb : forall s, completedb b l0 s = false).
  { intros s; destruct (completedb b l0 s) eqn:E; [|reflexivity].
    apply completedb_spec in E; exfalso; apply (Hno l0 s); simpl; auto. }
  rewrite !Hb; apply IH; intros l s Hin; apply Hno; simpl; auto.
Qed.

Lemma winners_agree_all : forall_boards winners_agree = true.
Proof. vm_compute. reflexivity. Qed.

Lemma check_winner_first_completed (b : board) :
  wf_board b -> AI.check_winner b = first_completed b lines.
Proof.
  intros Hb; pose proof (forall_boards_sound _ winners_agree_all b Hb) as H.
  unfold winners_agree in H; apply andb_true_iff in H as [H _].
  now apply cell_eqb_eq.
Qed.

Lemma game_check_winner_first_completed (gs : GameState) :
  wf_board (gs_board gs) -> fst (Game.check_winner gs) = first_completed (gs_board gs) lines.
Proof.
  intros Hb; pose proof (forall_boards_sound _ winners_agree_all _ Hb) as H.
  unfold winners_agree in H; apply andb_true_iff in H as [_ H].
  apply cell_eqb_eq in H; rewrite <- H; unfold Game.check_winner.
  destruct (Game.find_winner (gs_board gs)) as [[s l]|]; reflexivity.
Qed.

(** C5: on a 3x3 board, if line [l] of the scan order (rows, columns, main
    diagonal, anti-diagonal) is filled with symbol [s] and no line before it
    is completed, both [AIPlayer._check_winner] and [GameState.check_winner]
    return [s]; if no line is completed, both return [None], as on the empty
    board and on the drawn board [X O X / O O X / X X O]. *)
Theorem check_winner_correct (gs : GameState) :
  wf_board (gs_board gs) ->
  (forall i l s,
      nth_error lines i = Some l ->
      completed (gs_board gs) l s ->
      (forall j l' s', j < i -> nth_error lines j = Some l' ->
                       ~ completed (gs_board gs) l' s') ->
      AI.check_winner (gs_board gs) = Some s /\ fst (Game.check_winner gs) = Some s)
  /\ (no_line (gs_board gs) ->
      AI.check_winner (gs_board gs) = None /\ fst (Game.check_winner gs) = None)
  /\ no_line empty_board /\ no_line drawn_board.
Proof.
  intros Hb; split; [|split; [|split]].
  - intros i l s Hnth Hdone Hfirst.
    rewrite check_winner_first_completed, game_check_winner_first_completed by exact Hb.
    split; apply (first_completed_hit _ _ i l s); auto.
  - intros Hno.
    rewrite check_winner_first_completed, game_check_winner_first_completed by exact Hb.
    split; apply first_completed_none; exact Hno.
  - intros l s Hin Hdone; apply completedb_spec in Hdone.
    simpl in Hin; repeat (destruct Hin as [<-|Hin]; [destruct s; discriminate|]).
    exact Hin.
  - intros l s Hin Hdone; apply completedb_spec in Hdone.
    simpl in Hin; repeat (destruct Hin as [<-|Hin]; [destruct s; discriminate|]).
    exact Hin.
Qed.

Lemma check_winner_correct_witness :
  AI.check_winner x_column_board = Some X
  /\ fst (Game.check_winner (with_board (Game.init 0) x_column_board)) = Some X
  /\ AI.check_winner drawn_board = None
  /\ fst (Game.check_winner (with_board (Game.init 0) drawn_board)) = None.
Proof.
  pose proof (check_winner_correct (with_board (Game.init 0) x_column_board)
                (wf_board_grid _ _ _ _ _ _ _ _ _)) as (Hhit & _).
  pose proof (check_winner_correct (with_board (Game.init 0) drawn_board)
                (wf_board_grid _ _ _ _ _ _ _ _ _)) as (_ & Hnone & _ & Hdrawn).
  destruct (Hhit 4 ((0, 1), (1, 1), (2, 1)) X) as [H1 H2].
  - reflexivity.
  - repeat split.
  - intros j l' s' Hj Hnth Hdone; apply completedb_spec in Hdone.
    destruct j as [|[|[|[|j]]]]; try lia; inversion Hnth; subst l';
      destruct s'; discriminate.
  - destruct (Hnone Hdrawn) as [H3 H4].
    split; [exact H1|]; split; [exact H2|]; split; [exact H3 | exact H4].
Defined.

(** ** The immediate-win and immediate-block searches *)

Lemma all_cells_bound (r c : nat) : In (r, c) all_cells -> r < 3 /\ c < 3.
Proof.
  simpl; intros H.
  repeat (destruct H as [H|H]; [inversion H; subst; lia|]); contradiction.
Qed.

Lemma set_cell_undo (b : board) (r c : nat) (v : cell) :
  wf_board b -> r < 3 -> c < 3 -> get_cell b r c = None ->
  set_cell (set_cell b r c v) r c None = b.
Proof.
  intros Hb Hr Hc Hnone; rewrite <- Hnone; now apply set_cell_restore.
Qed.

Lemma is_none_eq (a : cell) : is_none a = true <-> a = None.
Proof. destruct a; simpl; split; congruence. Qed.

Section TryLoop.

Variable s : mark.
Variable b : board.
Hypothesis Hwf : wf_board b.

Lemma try_loop_board (cells : list move) :
  (forall r c, In (r, c) cells -> r < 3 /\ c < 3) ->
  snd (try_loop s b cells) = b.
Proof.
  induction cells as [|[r c] rest IH]; intros Hin; simpl; [reflexivity|].
  assert (Hrest : forall r' c', In (r', c') rest -> r' < 3 /\ c' < 3)
    by (intros; apply Hin; simpl; auto).
  destruct (is_none (get_cell b r c)) eqn:E; [|now apply IH].
  apply is_none_eq in E; destruct (Hin r c (or_introl eq_refl)) as [Hr Hc].
  rewrite (set_cell_undo b r c (Some s) Hwf Hr Hc E).
  destruct (cell_eqb _ _); [reflexivity | now apply IH].
Qed.

Lemma try_loop_found (cells : list move) (r c : nat) :
  (forall r' c', In (r', c') cells -> r' < 3 /\ c' < 3) ->
  fst (try_loop s b cells) = Some (r, c) ->
  In (r, c) cells /\ get_cell b r c = None
  /\ AI.check_winner (set_cell b r c (Some s)) = Some s.
Proof.
  induction cells as [|[r0 c0] rest IH]; intros Hin; simpl; [discriminate|].
  assert (Hrest : forall r' c', In (r', c') rest -> r' < 3 /\ c' < 3)
    by (intros; apply Hin; simpl; auto).
  destruct (is_none (get_cell b r0 c0)) eqn:E.
  - apply is_none_eq in E; destruct (Hin r0 c0 (or_introl eq_refl)) as [Hr Hc].
    rewrite (set_cell_undo b r0 c0 (Some s) Hwf Hr Hc E).
    destruct (cell_eqb _ _) eqn:Hwin; simpl.
    + intros Heq; inversion Heq; subst; apply cell_eqb_eq in Hwin; auto.
    + intros Heq; destruct (IH Hrest Heq) as (? & ? & ?); auto.
  - intros Heq; destruct (IH Hrest Heq) as (? & ? & ?); auto.
Qed.

Lemma try_loop_none (cells : list move) :
  (forall r c, In (r, c) cells -> r < 3 /\ c < 3) ->
  (forall r c, In (r, c) cells -> get_cell b r c = None ->
               AI.check_winner (set_cell b r c (Some s)) <> Some s) ->
  fst (try_loop s b cells) = None.
Proof.
  induction cells as [|[r0 c0] rest IH]; intros Hin Hno; simpl; [reflexivity|].
  assert (Hrest : forall r' c', In (r', c') rest -> r' < 3 /\ c' < 3)
    by (intros; apply Hin; simpl; auto).
  assert (Hno' : forall r c, In (r, c) rest -> get_cell b r c = None ->
                             AI.check_winner (set_cell b r c (Some s)) <> Some s)
    by (intros; apply Hno; simpl; auto).
  destruct (is_none (get_cell b r0 c0)) eqn:E; [|now apply IH].
  apply is_none_eq in E; destruct (Hin r0 c0 (or_introl eq_refl)) as [Hr Hc].
  rewrite (set_cell_undo b r0 c0 (Some s) Hwf Hr Hc E).
  destruct (cell_eqb _ _) eqn:Hwin; [|now apply IH].
  apply cell_eqb_eq in Hwin; exfalso; apply (Hno r0 c0); simpl; auto.
Qed.

End TryLoop.

Lemma with_board_same (gs : GameState) : with_board gs (gs_board gs) = gs.
Proof. destruct gs; reflexivity. Qed.

Lemma try_win_move_state (gs : GameState) :
  wf_board (gs_board gs) -> snd (_try_win_move gs) = gs.
Proof.
  intros Hb; unfold _try_win_move.
  pose proof (try_loop_board O _ Hb all_cells all_cells_bound) as H.
  destruct (try_loop O (gs_board gs) all_cells) as [m b']; simpl in *; subst b'.
  apply with_board_same.
Qed.

Lemma try_block_move_state (gs : GameState) :
  wf_board (gs_board gs) -> snd (_try_block_move gs) = gs.
Proof.
  intros Hb; unfold _try_block_move.
  pose proof (try_loop_board X _ Hb all_cells all_cells_bound) as H.
  destruct (try_loop X (gs_board gs) all_cells) as [m b']; simpl in *; subst b'.
  apply with_board_same.
Qed.

Lemma try_win_move_fst (gs : GameState) :
  fst (_try_win_move gs) = fst (try_loop O (gs_board gs) all_cells).
Proof. unfold _try_win_move; now destruct (try_loop O (gs_board gs) all_cells). Qed.

Lemma try_block_move_fst (gs : GameState) :
  fst (_try_block_move gs) = fst (try_loop X (gs_board gs) all_cells).
Proof. unfold _try_block_move; now destruct (try_loop X (gs_board gs) all_cells). Qed.

(** C6: on a 3x3 board, a move returned by [_try_win_move] (symbol ["O"]) or
    by [_try_block_move] (symbol ["X"]) is a free cell, and placing the symbol
    there makes [_check_winner] return that symbol; when no free cell makes
    [_check_winner] return the symbol, the search returns [None]. *)
Theorem find_winning_move_correct (gs : GameState) :
  wf_board (gs_board gs) ->
  (forall r c, fst (_try_win_move gs) = Some (r, c) ->
     get_cell (gs_board gs) r c = None
     /\ AI.check_winner (set_cell (gs_board gs) r c (Some O)) = Some O)
  /\ ((forall r c, In (r, c) (AI.get_empty_cells (gs_board gs)) ->
         AI.check_winner (set_cell (gs_board gs) r c (Some O)) <> Some O) ->
      fst (_try_win_move gs) = None)
  /\ (forall r c, fst (_try_block_move gs) = Some (r, c) ->
        get_cell (gs_board gs) r c = None
        /\ AI.check_winner (set_cell (gs_board gs) r c (Some X)) = Some X)
  /\ ((forall r c, In (r, c) (AI.get_empty_cells (gs_board gs)) ->
         AI.check_winner (set_cell (gs_board gs) r c (Some X)) <> Some X) ->
      fst (_try_block_move gs) = None).
Proof.
  intros Hb; repeat split.
  - rewrite try_win_move_fst in H.
    now destruct (try_loop_found O _ Hb all_cells r c all_cells_bound H) as (_ & ? & _).
  - rewrite try_win_move_fst in H.
    now destruct (try_loop_found O _ Hb all_cells r c all_cells_bound H) as (_ & _ & ?).
  - intros Hno; rewrite try_win_move_fst.
    apply (try_loop_none O _ Hb all_cells all_cells_bound).
    intros r c Hin Hnone; apply Hno, in_empty_cells.
    destruct (all_cells_bound r c Hin); auto.
  - rewrite try_block_move_fst in H.
    now destruct (try_loop_found X _ Hb all_cells r c all_cells_bound H) as (_ & ? & _).
  - rewrite try_block_move_fst in H.
    now destruct (try_loop_found X _ Hb all_cells r c all_cells_bound H) as (_ & _ & ?).
  - intros Hno; rewrite try_block_move_fst.
    apply (try_loop_none X _ Hb all_cells all_cells_bound).
    intros r c Hin Hnone; apply Hno, in_empty_cells.
    destruct (all_cells_bound r c Hin); auto.
Qed.

Lemma find_winning_move_correct_witness :
  AI.check_winner (set_cell o_threat_board 0 2 (Some O)) = Some O
  /\ AI.check_winner (set_cell o_threat_board 1 2 (Some X)) = Some X
  /\ fst (_try_win_move (Game.init 0)) = None.
Proof.
  pose proof (find_winning_move_correct (with_board (Game.init 0) o_threat_board)
                (wf_board_grid _ _ _ _ _ _ _ _ _)) as (Hwin & _ & Hblock & _).
  pose proof (find_winning_move_correct (Game.init 0) wf_empty_board) as (_ & Hnone & _).
  split; [|split].
  - apply (Hwin 0 2); reflexivity.
  - apply (Hblock 1 2); reflexivity.
  - apply Hnone; intros r c Hin.
    apply in_empty_cells in Hin as (Hr & Hc & _).
    destruct r as [|[|[|r]]]; try lia; destruct c as [|[|[|c]]]; try lia; discriminate.
Defined.

(** ** [get_move] leaves the game state as it found it *)

(** C7: for every engine and every 3x3 board, the state [get_move] leaves
    behind is the state it was given, so every cell holds the value it held
    before the call, although [_try_win_move] and [_try_block_move] write
    hypothetical marks into the board while they search. *)
Theorem get_move_preserves_board (self : AIPlayer) (gs : GameState) (d : draws) :
  wf_board (gs_board gs) ->
  snd (get_move self gs d) = gs
  /\ forall r c, get_cell (gs_board (snd (get_move self gs d))) r c
                 = get_cell (gs_board gs) r c.
Proof.
  intros Hb.
  assert (Hsame : snd (get_move self gs d) = gs).
  { unfold get_move.
    destruct (Qltb _ _); [reflexivity|].
    pose proof (try_win_move_state gs Hb) as Hwin.
    destruct (String.eqb (difficulty self) "Easy").
    - destruct (_try_win_move gs) as [m gs1]; simpl in Hwin; subst gs1.
      destruct m; [reflexivity|]; now destruct (Qltb _ _).
    - destruct (String.eqb (difficulty self) "Medium"); [|reflexivity].
      destruct (_try_win_move gs) as [m gs1]; simpl in Hwin; subst gs1.
      destruct m; [reflexivity|].
      pose proof (try_block_move_state gs Hb) as Hblock.
      destruct (_try_block_move gs) as [m2 gs2]; simpl in Hblock; subst gs2.
      now destruct m2. }
  split; [exact Hsame | now rewrite Hsame].
Qed.

Lemma get_move_preserves_board_witness :
  snd (get_move (new_AIPlayer "Medium") (with_board (Game.init 0) o_threat_board)
                (mkDraws 9007199254740991 0 0))
  = with_board (Game.init 0) o_threat_board.
Proof.
  apply (get_move_preserves_board (new_AIPlayer "Medium")
           (with_board (Game.init 0) o_threat_board) (mkDraws 9007199254740991 0 0)).
  apply wf_board_grid.
Defined.

(** ** Termination of the search *)

Lemma empties_shrink_all : forall_boards empties_shrink = true.
Proof. vm_compute. reflexivity. Qed.

Lemma empties_after_move (b : board) (r c : nat) (s : mark) :
  wf_board b -> In (r, c) (AI.get_empty_cells b) ->
  S (length (AI.get_empty_cells (set_cell b r c (Some s))))
  = length (AI.get_empty_cells b).
Proof.
  intros Hb Hin; pose proof (forall_boards_sound _ empties_shrink_all b Hb) as H.
  unfold empties_shrink in H; rewrite forallb_forall in H.
  specialize (H (r, c) Hin); apply andb_true_iff in H as [HX HO].
  apply Nat.eqb_eq in HX, HO; destruct s; assumption.
Qed.

Section Loops.

Variables rec rec' : board -> score -> score -> option score.
Variable b : board.

Lemma max_loop_total (cells : list move) :
  (forall r c a beta, In (r, c) cells ->
     exists v, rec (set_cell b r c (Some O)) a beta = Some v) ->
  forall m a beta, exists v, max_loop rec b cells m a beta = Some v.
Proof.
  induction cells as [|[r c] rest IH]; intros Hrec m a beta; simpl.
  - now exists m.
  - destruct (Hrec r c a beta (or_introl eq_refl)) as [s ->].
    destruct (score_leb beta (score_max a s)); [eauto|].
    apply IH; intros; apply Hrec; simpl; auto.
Qed.

Lemma min_loop_total (cells : list move) :
  (forall r c a beta, In (r, c) cells ->
     exists v, rec (set_cell b r c (Some X)) a beta = Some v) ->
  forall m a beta, exists v, min_loop rec b cells m a beta = Some v.
Proof.
  induction cells as [|[r c] rest IH]; intros Hrec m a beta; simpl.
  - now exists m.
  - destruct (Hrec r c a beta (or_introl eq_refl)) as [s ->].
    destruct (score_leb (score_min beta s) a); [eauto|].
    apply IH; intros; apply Hrec; simpl; auto.
Qed.

Hypothesis rec_mono : forall b' a beta v, rec b' a beta = Some v -> rec' b' a beta = Some v.

Lemma max_loop_mono (cells : list move) :
  forall m a beta v,
    max_loop rec b cells m a beta = Some v -> max_loop rec' b cells m a beta = Some v.
Proof.
  induction cells as [|[r c] rest IH]; intros m a beta v; simpl; [auto|].
  destruct (rec (set_cell b r c (Some O)) a beta) as [s|] eqn:E; [|discriminate].
  rewrite (rec_mono _ _ _ _ E).
  destruct (score_leb beta (score_max a s)); [auto | apply IH].
Qed.

Lemma min_loop_mono (cells : list move) :
  forall m a beta v,
    min_loop rec b cells m a beta = Some v -> min_loop rec' b cells m a beta = Some v.
Proof.
  induction cells as [|[r c] rest IH]; intros m a beta v; simpl; [auto|].
  destruct (rec (set_cell b r c (Some X)) a beta) as [s|] eqn:E; [|discriminate].
  rewrite (rec_mono _ _ _ _ E).
  destruct (score_leb (score_min beta s) a); [auto | apply IH].
Qed.

End Loops.

Lemma minimax_total_cells (self : AIPlayer) (fuel : nat) :
  forall b depth is_max alpha beta,
    wf_board b -> length (AI.get_empty_cells b) < fuel ->
    exists v, _minimax self fuel b depth is_max alpha beta = Some v.
Proof.
  induction fuel as [|fuel IH]; intros b depth is_max alpha beta Hb Hfuel; [lia|].
  simpl.
  destruct (AI.check_winner b) as [[|]|]; eauto.
  destruct (AI.is_board_full b); eauto.
  destruct (max_depth self <=? depth)%Z; eauto.
  destruct is_max.
  - apply max_loop_total; intros r c a be Hin; apply IH.
    + now apply wf_set_cell.
    + pose proof (empties_after_move b r c O Hb Hin); lia.
  - apply min_loop_total; intros r c a be Hin; apply IH.
    + now apply wf_set_cell.
    + pose proof (empties_after_move b r c X Hb Hin); lia.
Qed.

Lemma minimax_total_depth (self : AIPlayer) (fuel : nat) :
  forall b depth is_max alpha beta,
    Z.to_nat (max_depth self - depth) < fuel ->
    exists v, _minimax self fuel b depth is_max alpha beta = Some v.
Proof.
  induction fuel as [|fuel IH]; intros b depth is_max alpha beta Hfuel; [lia|].
  simpl.
  destruct (AI.check_winner b) as [[|]|]; eauto.
  destruct (AI.is_board_full b); eauto.
  destruct (max_depth self <=? depth)%Z eqn:E; eauto.
  apply Z.leb_gt in E.
  destruct is_max.
  - apply max_loop_total; intros r c a be Hin; apply IH; lia.
  - apply min_loop_total; intros r c a be Hin; apply IH; lia.
Qed.

Lemma minimax_fuel_mono (self : AIPlayer) (fuel : nat) :
  forall fuel' b depth is_max alpha beta v,
    fuel <= fuel' ->
    _minimax self fuel b depth is_max alpha beta = Some v ->
    _minimax self fuel' b depth is_max alpha beta = Some v.
Proof.
  induction fuel as [|fuel IH]; intros fuel' b depth is_max alpha beta v Hle;
    [discriminate|].
  destruct fuel' as [|fuel']; [lia|]; simpl.
  destruct (AI.check_winner b) as [[|]|]; auto.
  destruct (AI.is_board_full b); auto.
  destruct (max_depth self <=? depth)%Z; auto.
  destruct is_max.
  - apply max_loop_mono; intros; apply IH; auto; lia.
  - apply min_loop_mono; intros; apply IH; auto; lia.
Qed.

(** C8: the search terminates.  On a 3x3 board the call returns a value that
    no longer depends on the fuel once the fuel covers the free cells, and it
    also returns whenever the fuel covers the distance to [max_depth]; every
    recursive call is made on a board with strictly fewer free cells and at
    a depth one higher that stays within [max_depth]. *)
Theorem minimax_terminates (self : AIPlayer) (b : board) (depth : Z)
    (is_maximizing : bool) (alpha beta : score) :
  wf_board b ->
  (exists v, forall fuel,
      search_fuel b <= fuel ->
      _minimax self fuel b depth is_maximizing alpha beta = Some v)
  /\ (forall fuel,
        Z.to_nat (max_depth self - depth) < fuel ->
        exists v, _minimax self fuel b depth is_maximizing alpha beta = Some v)
  /\ (forall b' depth' is_maximizing',
        search_call self (b, depth, is_maximizing) (b', depth', is_maximizing') ->
        wf_board b'
        /\ length (AI.get_empty_cells b') < length (AI.get_empty_cells b)
        /\ (depth < depth' <= max_depth self)%Z).
Proof.
  intros Hb; split; [|split].
  - destruct (minimax_total_cells self (search_fuel b) b depth is_maximizing alpha beta Hb)
      as [v Hv]; [unfold search_fuel; lia|].
    exists v; intros fuel Hfuel; now apply (minimax_fuel_mono self (search_fuel b)).
  - intros fuel Hfuel; now apply minimax_total_depth.
  - intros b' depth' is_max' Hcall; inversion Hcall; subst.
    split; [now apply wf_set_cell|]; split; [|lia].
    match goal with
    | H : In _ (AI.get_empty_cells b) |- _ =>
        pose proof (empties_after_move b _ _ (if is_maximizing then O else X) Hb H)
    end; lia.
Qed.

Lemma minimax_terminates_witness :
  (exists v, forall fuel,
      search_fuel empty_board <= fuel ->
      _minimax Impossible fuel empty_board 0 true NegInf PosInf = Some v)
  /\ length (AI.get_empty_cells (set_cell empty_board 1 1 (Some O)))
     < length (AI.get_empty_cells empty_board).
Proof.
  pose proof (minimax_terminates Impossible empty_board 0 true NegInf PosInf
                wf_empty_board) as (Hv & _ & Hcall).
  split; [exact Hv|].
  apply (Hcall (set_cell empty_board 1 1 (Some O)) 1%Z false).
  apply (search_call_child Impossible empty_board 0 true 1 1);
    [reflexivity | reflexivity | change (0 < 9)%Z; lia | simpl; auto 10].
Defined.

(** ** The order on scores *)

Lemma score_max_spec (a b : score) :
  (score_ltb a b = true /\ score_max a b = b)
  \/ (score_ltb a b = false /\ score_max a b = a).
Proof. unfold score_max; destruct (score_ltb a b); auto. Qed.

Lemma score_min_spec (a b : score) :
  (score_ltb b a = true /\ score_min a b = b)
  \/ (score_ltb b a = false /\ score_min a b = a).
Proof. unfold score_min; destruct (score_ltb b a); auto. Qed.

Lemma score_eq_le (a b : score) :
  a = b <-> score_leb a b = true /\ score_leb b a = true.
Proof.
  split.
  - intros ->; unfold score_leb; destruct b; simpl; try tauto.
    rewrite Z.ltb_irrefl; auto.
  - unfold score_leb; destruct a, b; simpl; intros [H1 H2];
      try discriminate; try reflexivity.
    f_equal; lia.
Qed.

Ltac elim_max :=
  repeat match goal with
         | |- context [score_max ?a ?b] =>
             let H := fresh in let E := fresh in
             destruct (score_max_spec a b) as [[H E]|[H E]]; rewrite E in *; clear E
         | |- context [score_min ?a ?b] =>
             let H := fresh in let E := fresh in
             destruct (score_min_spec a b) as [[H E]|[H E]]; rewrite E in *; clear E
         | _ : context [score_max ?a ?b] |- _ =>
             let H := fresh in let E := fresh in
             destruct (score_max_spec a b) as [[H E]|[H E]]; rewrite E in *; clear E
         | _ : context [score_min ?a ?b] |- _ =>
             let H := fresh in let E := fresh in
             destruct (score_min_spec a b) as [[H E]|[H E]]; rewrite E in *; clear E
         end.

(** Decides facts of the linear order on scores, one constructor case at a
    time. *)
Ltac score_order :=
  elim_max;
  rewrite ?score_eq_le in *;
  unfold score_leb in *;
  repeat match goal with x : score |- _ => destruct x end;
  simpl in *; lia.

Lemma max_acc (alpha m s : score) :
  score_max (score_max alpha m) s = score_max alpha (score_max s m).
Proof. score_order. Qed.

Lemma min_acc (beta m s : score) :
  score_min (score_min beta m) s = score_min beta (score_min s m).
Proof. score_order. Qed.

Lemma score_max_neginf (alpha : score) : score_max alpha NegInf = alpha.
Proof. now destruct alpha. Qed.

Lemma score_min_posinf (beta : score) : score_min beta PosInf = beta.
Proof. now destruct beta. Qed.

Lemma window_sound_refl (alpha beta v : score) : window_sound alpha beta v v.
Proof. unfold window_sound; score_order. Qed.

Lemma window_sound_full (v t : score) : window_sound NegInf PosInf v t -> t = v.
Proof. unfold window_sound; intros H; score_order. Qed.

(** ** Pruning does not change the value inside the window *)

Lemma ref_max_loop_ge (rec : board -> option score) (b : board) (cells : list move) :
  forall M T, ref_max_loop rec b cells M = Some T -> score_leb M T = true.
Proof.
  induction cells as [|[r c] rest IH]; intros M T; simpl.
  - intros H; inversion H; subst; clear; score_order.
  - destruct (rec _) as [t|]; [|discriminate].
    intros H; apply IH in H; clear - H; score_order.
Qed.

Lemma ref_min_loop_le (rec : board -> option score) (b : board) (cells : list move) :
  forall M T, ref_min_loop rec b cells M = Some T -> score_leb T M = true.
Proof.
  induction cells as [|[r c] rest IH]; intros M T; simpl.
  - intros H; inversion H; subst; clear; score_order.
  - destruct (rec _) as [t|]; [|discriminate].
    intros H; apply IH in H; clear - H; score_order.
Qed.

(** The maximizing loop stops early: the child that raised [alpha] to [beta]
    is a lower bound of the node's value. *)
Lemma max_cut (alpha beta m s t M T : score) :
  score_ltb (score_max alpha m) beta = true ->
  window_sound (score_max alpha m) beta s t ->
  score_leb beta (score_max (score_max alpha m) s) = true ->
  score_leb (score_max t M) T = true ->
  window_sound alpha beta (score_max s m) T.
Proof.
  unfold window_sound; intros Hwin (_ & Hs & _) Ecut HT.
  assert (H1 : score_leb beta s = true) by (clear - Hwin Ecut; score_order).
  specialize (Hs H1).
  assert (H3 : score_max s m = s) by (clear - Hwin H1; score_order).
  assert (H4 : score_leb s T = true) by (clear - Hs HT; score_order).
  assert (H5 : score_ltb alpha beta = true) by (clear - Hwin; score_order).
  rewrite H3; clear - H1 H4 H5; score_order.
Qed.

Lemma max_child_le (alpha beta m s t : score) :
  window_sound (score_max alpha m) beta s t ->
  score_leb beta (score_max (score_max alpha m) s) = false ->
  score_leb t s = true
  /\ (score_ltb alpha s = true -> score_ltb m s = true -> t = s).
Proof.
  unfold window_sound; intros (Ha & _ & Hc) Ecut.
  assert (H1 : score_ltb s beta = true) by (clear - Ecut; score_order).
  split.
  - destruct (score_leb s (score_max alpha m)) eqn:E; [now apply Ha|].
    assert (Hlt : score_ltb (score_max alpha m) s = true) by (clear - E; score_order).
    rewrite (Hc Hlt H1); clear; score_order.
  - intros Hx Hy; apply Hc; [|exact H1]; clear - Hx Hy; score_order.
Qed.

(** The maximizing loop goes on: its invariant holds for the next cell. *)
Lemma max_next (alpha beta m s t M : score) :
  score_leb M m = true ->
  (score_ltb alpha m = true -> M = m) ->
  window_sound (score_max alpha m) beta s t ->
  score_leb beta (score_max (score_max alpha m) s) = false ->
  score_leb (score_max t M) (score_max s m) = true
  /\ (score_ltb alpha (score_max s m) = true -> score_max t M = score_max s m)
  /\ score_ltb (score_max alpha (score_max s m)) beta = true.
Proof.
  intros HMm Heq Hs Ecut.
  destruct (max_child_le alpha beta m s t Hs Ecut) as [H2 H3].
  split; [|split].
  - clear - HMm H2; score_order.
  - clear - HMm Heq H2 H3; score_order.
  - rewrite <- max_acc; clear - Ecut; score_order.
Qed.

Lemma min_cut (alpha beta m s t M T : score) :
  score_ltb alpha (score_min beta m) = true ->
  window_sound alpha (score_min beta m) s t ->
  score_leb (score_min (score_min beta m) s) alpha = true ->
  score_leb T (score_min t M) = true ->
  window_sound alpha beta (score_min s m) T.
Proof.
  unfold window_sound; intros Hwin (Hs & _ & _) Ecut HT.
  assert (H1 : score_leb s alpha = true) by (clear - Hwin Ecut; score_order).
  specialize (Hs H1).
  assert (H3 : score_min s m = s) by (clear - Hwin H1; score_order).
  assert (H4 : score_leb T s = true) by (clear - Hs HT; score_order).
  assert (H5 : score_ltb alpha beta = true) by (clear - Hwin; score_order).
  rewrite H3; clear - H1 H4 H5; score_order.
Qed.

Lemma min_child_ge (alpha beta m s t : score) :
  window_sound alpha (score_min beta m) s t ->
  score_leb (score_min (score_min beta m) s) alpha = false ->
  score_leb s t = true
  /\ (score_ltb s beta = true -> score_ltb s m = true -> t = s).
Proof.
  unfold window_sound; intros (_ & Hb & Hc) Ecut.
  assert (H1 : score_ltb alpha s = true) by (clear - Ecut; score_order).
  split.
  - destruct (score_leb (score_min beta m) s) eqn:E; [now apply Hb|].
    assert (Hlt : score_ltb s (score_min beta m) = true) by (clear - E; score_order).
    rewrite (Hc H1 Hlt); clear; score_order.
  - intros Hx Hy; apply Hc; [exact H1|]; clear - Hx Hy; score_order.
Qed.

Lemma min_next (alpha beta m s t M : score) :
  score_leb m M = true ->
  (score_ltb m beta = true -> M = m) ->
  window_sound alpha (score_min beta m) s t ->
  score_leb (score_min (score_min beta m) s) alpha = false ->
  score_leb (score_min s m) (score_min t M) = true
  /\ (score_ltb (score_min s m) beta = true -> score_min t M = score_min s m)
  /\ score_ltb alpha (score_min beta (score_min s m)) = true.
Proof.
  intros HMm Heq Hs Ecut.
  destruct (min_child_ge alpha beta m s t Hs Ecut) as [H2 H3].
  split; [|split].
  - clear - HMm H2; score_order.
  - clear - HMm Heq H2 H3; score_order.
  - rewrite <- min_acc; clear - Ecut; score_order.
Qed.

Lemma max_loop_sound (rec : board -> score -> score -> option score)
    (rec_ref : board -> option score) (b : board) (alpha beta : score)
    (cells : list move) :
  (forall b' a t,
      score_ltb a beta = true -> rec_ref b' = Some t ->
      exists s, rec b' a beta = Some s /\ window_sound a beta s t) ->
  forall m M T,
    score_leb M m = true ->
    (score_ltb alpha m = true -> M = m) ->
    score_ltb (score_max alpha m) beta = true ->
    ref_max_loop rec_ref b cells M = Some T ->
    exists v, max_loop rec b cells m (score_max alpha m) beta = Some v
              /\ window_sound alpha beta v T.
Proof.
  intros Hrec.
  induction cells as [|[r c] rest IH]; intros m M T HMm Heq Hwin; simpl.
  - intros H; inversion H; subst; exists m; split; [reflexivity|].
    unfold window_sound; clear - HMm Heq Hwin; score_order.
  - destruct (rec_ref (set_cell b r c (Some O))) as [t|] eqn:Et; [|discriminate].
    intros HT.
    destruct (Hrec _ (score_max alpha m) t Hwin Et) as (s & -> & Hs).
    destruct (score_leb beta (score_max (score_max alpha m) s)) eqn:Ecut.
    + exists (score_max s m); split; [reflexivity|].
      apply ref_max_loop_ge in HT; now apply (max_cut alpha beta m s t M T).
    + destruct (max_next alpha beta m s t M HMm Heq Hs Ecut) as (N1 & N2 & N3).
      rewrite max_acc; now apply (IH (score_max s m) (score_max t M) T).
Qed.

Lemma min_loop_sound (rec : board -> score -> score -> option score)
    (rec_ref : board -> option score) (b : board) (alpha beta : score)
    (cells : list move) :
  (forall b' be t,
      score_ltb alpha be = true -> rec_ref b' = Some t ->
      exists s, rec b' alpha be = Some s /\ window_sound alpha be s t) ->
  forall m M T,
    score_leb m M = true ->
    (score_ltb m beta = true -> M = m) ->
    score_ltb alpha (score_min beta m) = true ->
    ref_min_loop rec_ref b cells M = Some T ->
    exists v, min_loop rec b cells m alpha (score_min beta m) = Some v
              /\ window_sound alpha beta v T.
Proof.
  intros Hrec.
  induction cells as [|[r c] rest IH]; intros m M T HMm Heq Hwin; simpl.
  - intros H; inversion H; subst; exists m; split; [reflexivity|].
    unfold window_sound; clear - HMm Heq Hwin; score_order.
  - destruct (rec_ref (set_cell b r c (Some X))) as [t|] eqn:Et; [|discriminate].
    intros HT.
    destruct (Hrec _ (score_min beta m) t Hwin Et) as (s & -> & Hs).
    destruct (score_leb (score_min (score_min beta m) s) alpha) eqn:Ecut.
    + exists (score_min s m); split; [reflexivity|].
      apply ref_min_loop_le in HT; now apply (min_cut alpha beta m s t M T).
    + destruct (min_next alpha beta m s t M HMm Heq Hs Ecut) as (N1 & N2 & N3).
      rewrite min_acc; now apply (IH (score_min s m) (score_min t M) T).
Qed.

(** Whenever the unpruned search returns [t], the pruned search called with
    an open window returns a value that stands for [t]. *)
Lemma alphabeta_sound (self : AIPlayer) (fuel : nat) :
  forall b depth is_max alpha beta t,
    score_ltb alpha beta = true ->
    minimax_ref self fuel b depth is_max = Some t ->
    exists v, _minimax self fuel b depth is_max alpha beta = Some v
              /\ window_sound alpha beta v t.
Proof.
  induction fuel as [|fuel IH]; intros b depth is_max alpha beta t Hwin; simpl;
    [discriminate|].
  destruct (AI.check_winner b) as [[|]|].
  - intros H; inversion H; subst; eexists; split; [reflexivity|apply window_sound_refl].
  - intros H; inversion H; subst; eexists; split; [reflexivity|apply window_sound_refl].
  - destruct (AI.is_board_full b);
      [intros H; inversion H; subst; eexists; split;
       [reflexivity|apply window_sound_refl]|].
    destruct (max_depth self <=? depth)%Z;
      [intros H; inversion H; subst; eexists; split;
       [reflexivity|apply window_sound_refl]|].
    destruct is_max; intros Href.
    + pose proof (max_loop_sound
                    (fun b' a' b'' => _minimax self fuel b' (depth + 1) false a' b'')
                    (fun b' => minimax_ref self fuel b' (depth + 1) false)
                    b alpha beta (AI.get_empty_cells b)
                    (fun b' a t' Ha Ht => IH b' (depth + 1)%Z false a beta t' Ha Ht)
                    NegInf NegInf t) as Hloop.
      rewrite score_max_neginf in Hloop; apply Hloop; auto.
    + pose proof (min_loop_sound
                    (fun b' a' b'' => _minimax self fuel b' (depth + 1) true a' b'')
                    (fun b' => minimax_ref self fuel b' (depth + 1) true)
                    b alpha beta (AI.get_empty_cells b)
                    (fun b' be t' Hb Ht => IH b' (depth + 1)%Z true alpha be t' Hb Ht)
                    PosInf PosInf t) as Hloop.
      rewrite score_min_posinf in Hloop; apply Hloop; auto.
Qed.

(** ** The unpruned search terminates as well *)

Section RefLoops.

Variable rec : board -> option score.
Variable b : board.

Lemma ref_max_loop_total (cells : list move) :
  (forall r c, In (r, c) cells -> exists v, rec (set_cell b r c (Some O)) = Some v) ->
  forall m, exists v, ref_max_loop rec b cells m = Some v.
Proof.
  induction cells as [|[r c] rest IH]; intros Hrec m; simpl.
  - now exists m.
  - destruct (Hrec r c (or_introl eq_refl)) as [s ->].
    apply IH; intros; apply Hrec; simpl; auto.
Qed.

Lemma ref_min_loop_total (cells : list move) :
  (forall r c, In (r, c) cells -> exists v, rec (set_cell b r c (Some X)) = Some v) ->
  forall m, exists v, ref_min_loop rec b cells m = Some v.
Proof.
  induction cells as [|[r c] rest IH]; intros Hrec m; simpl.
  - now exists m.
  - destruct (Hrec r c (or_introl eq_refl)) as [s ->].
    apply IH; intros; apply Hrec; simpl; auto.
Qed.

End RefLoops.

Lemma minimax_ref_total (self : AIPlayer) (fuel : nat) :
  forall b depth is_max,
    wf_board b -> length (AI.get_empty_cells b) < fuel ->
    exists v, minimax_ref self fuel b depth is_max = Some v.
Proof.
  induction fuel as [|fuel IH]; intros b depth is_max Hb Hfuel; [lia|].
  simpl.
  destruct (AI.check_winner b) as [[|]|]; eauto.
  destruct (AI.is_board_full b); eauto.
  destruct (max_depth self <=? depth)%Z; eauto.
  destruct is_max.
  - apply ref_max_loop_total; intros r c Hin; apply IH.
    + now apply wf_set_cell.
    + pose proof (empties_after_move b r c O Hb Hin); lia.
  - apply ref_min_loop_total; intros r c Hin; apply IH.
    + now apply wf_set_cell.
    + pose proof (empties_after_move b r c X Hb Hin); lia.
Qed.

Lemma reachable_wf (b : board) (p : mark) : reachable b p -> wf_board b.
Proof.
  induction 1; [apply wf_empty_board | now apply wf_set_cell].
Qed.

Lemma root_scores_agree (self : AIPlayer) (b : board) :
  wf_board b ->
  exists v,
    _minimax self (search_fuel b) b 0 false NegInf PosInf = Some v
    /\ minimax_ref self (search_fuel b) b 0 false = Some v.
Proof.
  intros Hb.
  destruct (minimax_ref_total self (search_fuel b) b 0%Z false Hb) as [t Ht];
    [unfold search_fuel; lia|].
  destruct (alphabeta_sound self _ b 0%Z false NegInf PosInf t eq_refl Ht) as (v & Hv & Hs).
  apply window_sound_full in Hs; subst t; eauto.
Qed.

(** C2: on every board that legal alternating play reaches and for every
    engine (so for every tier's depth), each root move that [_get_best_move]
    considers gets the same score from the pruned [_minimax] as from the
    unpruned depth-bounded minimax with the same terminal scoring, and the
    move selected is the same with and without pruning. *)
Theorem pruning_preserves_best_move (self : AIPlayer) (b : board) (p : mark) :
  reachable b p ->
  (forall r c,
      In (r, c) (AI.get_empty_cells b) ->
      let child := set_cell b r c (Some O) in
      exists v,
        _minimax self (search_fuel child) child 0 false NegInf PosInf = Some v
        /\ minimax_ref self (search_fuel child) child 0 false = Some v)
  /\ _get_best_move self b = best_move_ref self b.
Proof.
  intros Hreach; pose proof (reachable_wf b p Hreach) as Hb.
  assert (Hroot : forall r c,
             exists v,
               _minimax self (search_fuel (set_cell b r c (Some O)))
                        (set_cell b r c (Some O)) 0 false NegInf PosInf = Some v
               /\ minimax_ref self (search_fuel (set_cell b r c (Some O)))
                              (set_cell b r c (Some O)) 0 false = Some v).
  { intros r c; apply root_scores_agree; now apply wf_set_cell. }
  split.
  - intros r c _; apply Hroot.
  - rewrite get_best_move_unfold; unfold best_move_ref.
    apply best_move_by_ext; intros r c _.
    unfold root_score, root_score_ref.
    destruct (Hroot r c) as (v & -> & ->); reflexivity.
Qed.

Lemma pruning_preserves_best_move_witness :
  _get_best_move (new_AIPlayer "Hard") (set_cell empty_board 1 1 (Some X))
  = best_move_ref (new_AIPlayer "Hard") (set_cell empty_board 1 1 (Some X)).
Proof.
  apply (pruning_preserves_best_move (new_AIPlayer "Hard")
           (set_cell empty_board 1 1 (Some X)) (other X)).
  apply reach_move; [apply reach_start | reflexivity | simpl; auto 10].
Defined.

(** ** The Impossible tier against any play of ["X"] *)

Lemma engine_step_all : forall_boards engine_step_ok = true.
Proof. vm_compute. reflexivity. Qed.

Lemma player_step_all : forall_boards player_step_ok = true.
Proof. vm_compute. reflexivity. Qed.

Lemma every_move_forall (f : move -> bool) (l : list move) :
  every_move f l = true -> forall m, In m l -> f m = true.
Proof.
  induction l as [|m0 rest IH]; simpl; [contradiction|].
  destruct (f m0) eqn:E; [|discriminate].
  intros H m [<-|Hin]; auto.
Qed.

Lemma can_hold_no_x_win (n : nat) (p : mark) (b : board) :
  can_hold n p b = true -> AI.check_winner b <> Some X.
Proof.
  destruct n; simpl; destruct (AI.check_winner b) as [[|]|]; congruence.
Qed.

Lemma engine_move_holds (b : board) (r c : nat) :
  wf_board b -> in_progress b = true -> can_hold 9 O b = true ->
  _get_best_move Impossible b = Some (r, c) ->
  In (r, c) (AI.get_empty_cells b) /\ can_hold 9 X (set_cell b r c (Some O)) = true.
Proof.
  intros Hb Hprog Hhold Hmove.
  pose proof (forall_boards_sound _ engine_step_all b Hb) as H.
  unfold engine_step_ok in H; rewrite Hprog, Hhold, Hmove in H.
  destruct (existsb _ _) eqn:E; [|discriminate].
  split; [|exact H].
  apply existsb_exists in E as ([r' c'] & Hin & Heq); simpl in Heq.
  apply andb_true_iff in Heq as [Hr Hc].
  apply Nat.eqb_eq in Hr, Hc; now subst.
Qed.

Lemma engine_moves (b : board) :
  wf_board b -> in_progress b = true -> can_hold 9 O b = true ->
  exists m, _get_best_move Impossible b = Some m.
Proof.
  intros Hb Hprog Hhold.
  pose proof (forall_boards_sound _ engine_step_all b Hb) as H.
  unfold engine_step_ok in H; rewrite Hprog, Hhold in H.
  destruct (_get_best_move Impossible b) as [m|]; [eauto | discriminate].
Qed.

Lemma player_move_holds (b : board) (r c : nat) :
  wf_board b -> in_progress b = true -> can_hold 9 X b = true ->
  In (r, c) (AI.get_empty_cells b) ->
  can_hold 9 O (set_cell b r c (Some X)) = true.
Proof.
  intros Hb Hprog Hhold Hin.
  pose proof (forall_boards_sound _ player_step_all b Hb) as H.
  unfold player_step_ok in H; rewrite Hprog, Hhold in H.
  exact (every_move_forall _ _ H (r, c) Hin).
Qed.

Lemma engine_play_holds (ok : board -> move -> Prop) (b0 b : board) (p : mark) :
  wf_board b0 -> can_hold 9 O b0 = true ->
  engine_play ok b0 b p -> wf_board b /\ can_hold 9 p b = true.
Proof.
  intros Hb0 Hhold0 Hplay; induction Hplay as
    [|b gs d r c Hplay [Hb Hhold] Hprog Hgs Hmove
     |b r c Hplay [Hb Hhold] Hprog Hin Hok].
  - auto.
  - rewrite get_move_impossible in Hmove; simpl in Hmove; rewrite Hgs in Hmove.
    split; [now apply wf_set_cell|].
    now apply engine_move_holds.
  - split; [now apply wf_set_cell|].
    now apply player_move_holds.
Qed.

Lemma reachable_lost_board : reachable lost_board O.
Proof.
  assert (H1 : reachable (set_cell empty_board 0 0 (Some X)) O)
    by (apply (reach_move empty_board X 0 0);
        [apply reach_start | reflexivity | simpl; auto 10]).
  assert (H2 : reachable (set_cell (set_cell empty_board 0 0 (Some X)) 0 1 (Some O)) X)
    by (apply (reach_move _ O 0 1); [exact H1 | reflexivity | simpl; auto 10]).
  assert (H3 : reachable
                 (set_cell (set_cell (set_cell empty_board 0 0 (Some X)) 0 1 (Some O))
                           1 1 (Some X)) O)
    by (apply (reach_move _ X 1 1); [exact H2 | reflexivity | simpl; auto 10]).
  assert (H4 : reachable
                 (set_cell
                    (set_cell (set_cell (set_cell empty_board 0 0 (Some X)) 0 1 (Some O))
                              1 1 (Some X)) 2 2 (Some O)) X)
    by (apply (reach_move _ O 2 2); [exact H3 | reflexivity | simpl; auto 10]).
  exact (reach_move _ X 1 0 H4 eq_refl (or_intror (or_introl eq_refl))).
Qed.

(** C1, as the code supports it: from every position that legal alternating
    play reaches with ["O"] to move and in which ["O"] is not already lost,
    the Impossible tier never loses.  Whatever legal moves ["X"] plays against
    the moves [get_move] returns, no position of the game has
    [check_winner = "X"], and as long as the game goes on [get_move] returns a
    free cell. *)
Theorem impossible_never_loses (b0 : board) :
  reachable b0 O ->
  not_lost b0 = true ->
  forall b p,
    engine_play any_reply b0 b p ->
    AI.check_winner b <> Some X
    /\ (p = O -> in_progress b = true ->
        exists m, In m (AI.get_empty_cells b)
                  /\ forall gs d, gs_board gs = b ->
                                  fst (get_move Impossible gs d) = Some m).
Proof.
  intros Hreach Hhold0 b p Hplay.
  pose proof (reachable_wf _ _ Hreach) as Hb0.
  destruct (engine_play_holds any_reply b0 b p Hb0 Hhold0 Hplay) as [Hb Hhold].
  split; [exact (can_hold_no_x_win _ _ _ Hhold)|].
  intros -> Hprog.
  destruct (engine_moves b Hb Hprog Hhold) as [[r c] Hmove].
  exists (r, c); split.
  - now apply engine_move_holds.
  - intros gs d <-; now rewrite get_move_impossible.
Qed.

Lemma impossible_never_loses_witness :
  AI.check_winner
    (set_cell (set_cell (set_cell empty_board 1 1 (Some X)) 0 0 (Some O)) 2 2 (Some X))
  <> Some X.
Proof.
  assert (Hreach : reachable (set_cell empty_board 1 1 (Some X)) O)
    by (apply (reach_move empty_board X 1 1);
        [apply reach_start | reflexivity | simpl; auto 10]).
  refine (proj1 (impossible_never_loses (set_cell empty_board 1 1 (Some X)) Hreach _
                   _ O _)).
  - vm_compute; reflexivity.
  - apply play_player; [|reflexivity | simpl; auto 10 | exact I].
    apply (play_engine any_reply _ _
             (with_board (Game.init 0) (set_cell empty_board 1 1 (Some X)))
             (mkDraws 0 0 0));
      [apply play_start | reflexivity | reflexivity | vm_compute; reflexivity].
Defined.

(** C1 as it is worded fails: [lost_board] is reached by legal alternating
    play with ["O"] to move, the engine answers [(0, 2)], and the optimal
    reply [(1, 2)] of ["X"] completes the middle row. *)
Lemma impossible_loses_when_lost :
  ~ (forall b0, reachable b0 O ->
       forall b p, engine_play (optimal_reply Impossible) b0 b p ->
                   AI.check_winner b <> Some X).
Proof.
  intros Hclaim.
  apply (Hclaim lost_board reachable_lost_board
           (set_cell (set_cell lost_board 0 2 (Some O)) 1 2 (Some X)) O);
    [|reflexivity].
  apply play_player.
  - apply (play_engine _ _ _ (with_board (Game.init 0) lost_board) (mkDraws 0 0 0));
      [apply play_start | reflexivity | reflexivity | vm_compute; reflexivity].
  - reflexivity.
  - simpl; auto 10.
  - intros m' Hin; simpl in Hin.
    repeat (destruct Hin as [<-|Hin]; [vm_compute; reflexivity|]).
    contradiction.
Qed.

(** ** Fullness and the list of free cells *)

Lemma full_iff_no_empties_all : forall_boards full_iff_no_empties = true.
Proof. vm_compute. reflexivity. Qed.

Lemma is_board_full_iff (b : board) :
  wf_board b -> (AI.is_board_full b = true <-> AI.get_empty_cells b = []).
Proof.
  intros Hb; pose proof (forall_boards_sound _ full_iff_no_empties_all b Hb) as H.
  unfold full_iff_no_empties in H; apply Bool.eqb_prop in H; rewrite H.
  destruct (AI.get_empty_cells b); split; congruence.
Qed.

(** ** The positions a game against the engine starts from *)

(** Neither the empty board nor any opening move of ["X"] is lost for ["O"],
    so [impossible_never_loses] covers every game the engine plays from the
    start, whoever opens. *)
Lemma openings_not_lost :
  not_lost empty_board = true
  /\ forallb (fun rc : move => not_lost (set_cell empty_board (fst rc) (snd rc) (Some X)))
             all_cells = true.
Proof. split; vm_compute; reflexivity. Qed.

(** * Further properties *)

(** ** Statistics *)

Lemma record_all_snoc (st : Statistics) (outcomes : list cell) (w : cell) :
  record_all st (outcomes ++ [w]) = Stats.record_win (record_all st outcomes) w.
Proof. unfold record_all; now rewrite fold_left_app. Qed.

Lemma count_outcome_snoc (v w : cell) (outcomes : list cell) :
  count_outcome v (outcomes ++ [w])
  = (count_outcome v outcomes + (if cell_eqb v w then 1 else 0))%Z.
Proof.
  unfold count_outcome; rewrite filter_app, length_app; simpl.
  destruct (cell_eqb v w); simpl; lia.
Qed.

(** X1: the counters add up.  After any sequence of recorded rounds the
    statistics hold the number of rounds and, per outcome, how often it
    occurred, on top of what they held before; the three outcome counters
    grow by the number of rounds in total. *)
Theorem record_win_counts (st : Statistics) (outcomes : list cell) :
  total_games (record_all st outcomes) = (total_games st + Z.of_nat (length outcomes))%Z
  /\ player_wins (record_all st outcomes)
     = (player_wins st + count_outcome (Some X) outcomes)%Z
  /\ ai_wins (record_all st outcomes) = (ai_wins st + count_outcome (Some O) outcomes)%Z
  /\ draws_count (record_all st outcomes) = (draws_count st + count_outcome None outcomes)%Z
  /\ (player_wins (record_all st outcomes) + ai_wins (record_all st outcomes)
      + draws_count (record_all st outcomes)
      = player_wins st + ai_wins st + draws_count st + Z.of_nat (length outcomes))%Z.
Proof.
  induction outcomes as [|w outcomes IH] using rev_ind.
  - unfold count_outcome; simpl; repeat split; lia.
  - destruct IH as (Ht & Hp & Ha & Hd & Hsum).
    rewrite record_all_snoc, !count_outcome_snoc, length_app; simpl length.
    destruct w as [[|]|]; simpl; repeat split; lia.
Qed.

Lemma streak_le_longest (h : list cell) :
  (0 <= streak_of h <= longest_streak h)%Z.
Proof.
  induction h as [|w h IH]; simpl; [lia|].
  destruct w as [[|]|]; lia.
Qed.

(** X2: the streak counters.  Starting from fresh statistics, [win_streak] is
    the number of player wins since the last win of the opponent (draws leave
    it as it is) and [best_streak] is the largest value [win_streak] ever
    had. *)
Theorem record_win_streaks (outcomes : list cell) :
  win_streak (record_all Stats.init outcomes) = streak_of (rev outcomes)
  /\ best_streak (record_all Stats.init outcomes) = longest_streak (rev outcomes).
Proof.
  induction outcomes as [|w outcomes [IHs IHb]] using rev_ind; [split; reflexivity|].
  rewrite record_all_snoc, rev_app_distr; simpl rev; simpl app.
  pose proof (streak_le_longest (rev outcomes)) as Hle.
  destruct w as [[|]|]; cbn [Stats.record_win win_streak best_streak streak_of longest_streak];
    rewrite ?IHs, ?IHb; split; try reflexivity; try lia.
  destruct (Z.ltb_spec (longest_streak (rev outcomes)) (streak_of (rev outcomes) + 1)); lia.
Qed.

(** ** The highlight of the winning line *)

Lemma highlight_ok_all : forall_boards highlight_ok = true.
Proof. vm_compute. reflexivity. Qed.

(** X3: what [GameState.check_winner] stores.  On a 3x3 board a call that
    finds no winner leaves the state as it was; a call that returns symbol [s]
    changes nothing but [winning_line], and the stored segment runs through
    the middle of the three cells of a line that [s] has completed. *)
Theorem check_winner_highlight (gs : GameState) :
  wf_board (gs_board gs) ->
  (fst (Game.check_winner gs) = None -> snd (Game.check_winner gs) = gs)
  /\ (forall s, fst (Game.check_winner gs) = Some s ->
        exists l p q r,
          snd (Game.check_winner gs) = with_winning_line gs l
          /\ In (p, q, r) lines
          /\ completed (gs_board gs) (p, q, r) s
          /\ on_segment l (cell_center p) = true
          /\ on_segment l (cell_center q) = true
          /\ on_segment l (cell_center r) = true).
Proof.
  intros Hb; pose proof (forall_boards_sound _ highlight_ok_all _ Hb) as H.
  unfold highlight_ok in H; unfold Game.check_winner.
  destruct (Game.find_winner (gs_board gs)) as [[s0 l]|]; simpl.
  - split; [discriminate|]; intros s Hs; inversion Hs; subst s0.
    apply existsb_exists in H as ([[p q] r] & Hin & Hok).
    rewrite !andb_true_iff in Hok; destruct Hok as (((Hc & Hp) & Hq) & Hr).
    apply completedb_spec in Hc.
    exists l, p, q, r; repeat split; auto; apply Hc.
  - split; [reflexivity | discriminate].
Qed.

Lemma check_winner_highlight_witness :
  exists l p q r,
    snd (Game.check_winner (with_board (Game.init 0) x_column_board))
    = with_winning_line (with_board (Game.init 0) x_column_board) l
    /\ In (p, q, r) lines
    /\ completed x_column_board (p, q, r) X
    /\ on_segment l (cell_center p) = true
    /\ on_segment l (cell_center q) = true
    /\ on_segment l (cell_center r) = true.
Proof.
  apply (proj2 (check_winner_highlight (with_board (Game.init 0) x_column_board)
                  (wf_board_grid _ _ _ _ _ _ _ _ _)) X).
  reflexivity.
Defined.

(** ** From a click to a cell *)

(** X4: [get_clicked_cell] maps a pixel of the board area to the cell that
    contains it, and a pixel at or below the lower edge of the board to
    [(None, None)]. *)
Theorem get_clicked_cell_spec (x y : Z) :
  ((0 <= x < WIDTH)%Z -> (0 <= y < BOARD_PIXEL_HEIGHT)%Z ->
   exists row col,
     Render.get_clicked_cell (x, y) = (Some (Z.of_nat row), Some (Z.of_nat col))
     /\ row < BOARD_ROWS /\ col < BOARD_COLS
     /\ (Z.of_nat col * CELL_SIZE <= x < (Z.of_nat col + 1) * CELL_SIZE)%Z
     /\ (Z.of_nat row * CELL_SIZE <= y < (Z.of_nat row + 1) * CELL_SIZE)%Z)
  /\ ((BOARD_PIXEL_HEIGHT <= y)%Z -> Render.get_clicked_cell (x, y) = (None, None)).
Proof.
  unfold Render.get_clicked_cell, BOARD_ROWS, BOARD_COLS.
  change BOARD_PIXEL_HEIGHT with 600%Z; change CELL_SIZE with 200%Z;
    change WIDTH with 600%Z.
  split.
  - intros Hx Hy.
    destruct (Z.ltb_spec y 600); [|lia].
    exists (Z.to_nat (y / 200)), (Z.to_nat (x / 200)).
    assert (0 <= x / 200 < 3)%Z
      by (split; [apply Z.div_pos; lia | apply Z.div_lt_upper_bound; lia]).
    assert (0 <= y / 200 < 3)%Z
      by (split; [apply Z.div_pos; lia | apply Z.div_lt_upper_bound; lia]).
    rewrite !Z2Nat.id by lia.
    pose proof (Z.mul_div_le x 200 ltac:(lia)).
    pose proof (Z.mul_succ_div_gt x 200 ltac:(lia)).
    pose proof (Z.mul_div_le y 200 ltac:(lia)).
    pose proof (Z.mul_succ_div_gt y 200 ltac:(lia)).
    repeat split; lia.
  - intros Hy; destruct (Z.ltb_spec y 600); [lia | reflexivity].
Qed.

Lemma get_clicked_cell_spec_witness :
  exists row col,
    Render.get_clicked_cell (450, 130)%Z = (Some (Z.of_nat row), Some (Z.of_nat col))
    /\ row < BOARD_ROWS /\ col < BOARD_COLS
    /\ (Z.of_nat col * CELL_SIZE <= 450 < (Z.of_nat col + 1) * CELL_SIZE)%Z
    /\ (Z.of_nat row * CELL_SIZE <= 130 < (Z.of_nat row + 1) * CELL_SIZE)%Z.
Proof.
  apply (proj1 (get_clicked_cell_spec 450 130)); vm_compute; split; congruence.
Defined.

(** ** The values of the search *)

Lemma choice_in {A : Type} (k : nat) (l : list A) :
  l <> [] -> exists x, choice k l = Some x /\ In x l.
Proof.
  intros Hne; unfold choice.
  assert (Hlt : k mod length l < length l)
    by (apply Nat.mod_upper_bound; destruct l; [congruence | discriminate]).
  destruct (nth_error l (k mod length l)) as [x|] eqn:E.
  - exists x; split; [reflexivity | now apply nth_error_In in E].
  - apply nth_error_None in E; lia.
Qed.

Lemma not_full_has_empty (b : board) :
  wf_board b -> AI.is_board_full b = false -> AI.get_empty_cells b <> [].
Proof.
  intros Hb Hfull Hnil; apply (is_board_full_iff b Hb) in Hnil; congruence.
Qed.

Lemma max_loop_fin (rec : board -> score -> score -> option score) (b : board)
    (Q : Z -> Prop) (cells : list move) :
  (forall r c a beta, In (r, c) cells ->
     exists z, rec (set_cell b r c (Some O)) a beta = Some (Fin z) /\ Q z) ->
  forall m a beta,
    (m = NegInf /\ cells <> []) \/ (exists z, m = Fin z /\ Q z) ->
    exists z, max_loop rec b cells m a beta = Some (Fin z) /\ Q z.
Proof.
  induction cells as [|[r c] rest IH]; intros Hrec m a beta Hm; simpl.
  - destruct Hm as [[_ Hne]|(z & -> & Hz)]; [congruence | eauto].
  - destruct (Hrec r c a beta (or_introl eq_refl)) as (z & -> & Hz).
    assert (Hm' : exists z', score_max (Fin z) m = Fin z' /\ Q z').
    { destruct Hm as [[Hm _]|(z0 & Hm & Hz0)]; subst m; [unfold score_max; simpl; eauto|].
      unfold score_max; simpl; destruct (z <? z0)%Z; eauto. }
    destruct Hm' as (z' & Hz' & HQ); rewrite Hz'.
    destruct (score_leb beta (score_max a (Fin z))); [eauto|].
    apply IH; [intros; apply Hrec; simpl; auto | right; eauto].
Qed.

Lemma min_loop_fin (rec : board -> score -> score -> option score) (b : board)
    (Q : Z -> Prop) (cells : list move) :
  (forall r c a beta, In (r, c) cells ->
     exists z, rec (set_cell b r c (Some X)) a beta = Some (Fin z) /\ Q z) ->
  forall m a beta,
    (m = PosInf /\ cells <> []) \/ (exists z, m = Fin z /\ Q z) ->
    exists z, min_loop rec b cells m a beta = Some (Fin z) /\ Q z.
Proof.
  induction cells as [|[r c] rest IH]; intros Hrec m a beta Hm; simpl.
  - destruct Hm as [[_ Hne]|(z & -> & Hz)]; [congruence | eauto].
  - destruct (Hrec r c a beta (or_introl eq_refl)) as (z & -> & Hz).
    assert (Hm' : exists z', score_min (Fin z) m = Fin z' /\ Q z').
    { destruct Hm as [[Hm _]|(z0 & Hm & Hz0)]; subst m; [unfold score_min; simpl; eauto|].
      unfold score_min; simpl; destruct (z0 <? z)%Z; eauto. }
    destruct Hm' as (z' & Hz' & HQ); rewrite Hz'.
    destruct (score_leb (score_min beta (Fin z)) a); [eauto|].
    apply IH; [intros; apply Hrec; simpl; auto | right; eauto].
Qed.

Section ValueInvariant.

Variable self : AIPlayer.
Variable R : Z -> Z -> Prop.
Hypothesis R_o_wins : forall d, R d (10 - d)%Z.
Hypothesis R_x_wins : forall d, R d (d - 10)%Z.
Hypothesis R_neutral : forall d, R d 0%Z.
Hypothesis R_child : forall d z, (d < max_depth self)%Z -> R (d + 1)%Z z -> R d z.

Lemma minimax_value_inv (fuel : nat) :
  forall b depth is_max alpha beta,
    wf_board b -> length (AI.get_empty_cells b) < fuel ->
    exists z, _minimax self fuel b depth is_max alpha beta = Some (Fin z) /\ R depth z.
Proof.
  induction fuel as [|fuel IH]; intros b depth is_max alpha beta Hb Hfuel; [lia|].
  simpl.
  destruct (AI.check_winner b) as [[|]|]; eauto.
  destruct (AI.is_board_full b) eqn:Hfull; eauto.
  destruct (max_depth self <=? depth)%Z eqn:Hd; eauto.
  apply Z.leb_gt in Hd.
  pose proof (not_full_has_empty b Hb Hfull) as Hne.
  destruct is_max.
  - apply (max_loop_fin _ b (R depth)); [|auto].
    intros r c a be Hin.
    destruct (IH (set_cell b r c (Some O)) (depth + 1)%Z false a be) as (z & Hz & HR).
    + now apply wf_set_cell.
    + pose proof (empties_after_move b r c O Hb Hin); lia.
    + eauto.
  - apply (min_loop_fin _ b (R depth)); [|auto].
    intros r c a be Hin.
    destruct (IH (set_cell b r c (Some X)) (depth + 1)%Z true a be) as (z & Hz & HR).
    + now apply wf_set_cell.
    + pose proof (empties_after_move b r c X Hb Hin); lia.
    + eauto.
Qed.

End ValueInvariant.

(** X5: the scores of the search are bounded integers.  For an engine with
    [max_depth <= 10] (every tier), a call of [_minimax] on a 3x3 board at a
    depth between 0 and 10 returns an integer between [depth - 10] and
    [10 - depth], never an infinity. *)
Theorem minimax_score_range (self : AIPlayer) (b : board) (depth : Z)
    (is_maximizing : bool) (alpha beta : score) :
  wf_board b -> (max_depth self <= 10)%Z -> (0 <= depth <= 10)%Z ->
  exists z,
    _minimax self (search_fuel b) b depth is_maximizing alpha beta = Some (Fin z)
    /\ (depth - 10 <= z <= 10 - depth)%Z.
Proof.
  intros Hb Hmax Hdepth.
  destruct (minimax_value_inv self
              (fun d z => (0 <= d <= 10 -> d - 10 <= z <= 10 - d)%Z))
    with (fuel := search_fuel b) (b := b) (depth := depth) (is_max := is_maximizing)
         (alpha := alpha) (beta := beta) as (z & Hz & HR);
    try (intros; lia); auto.
  exists z; auto.
Qed.

Lemma minimax_score_range_witness :
  exists z,
    _minimax (new_AIPlayer "Hard") (search_fuel empty_board) empty_board 2 true
             NegInf PosInf = Some (Fin z)
    /\ (2 - 10 <= z <= 10 - 2)%Z.
Proof.
  apply (minimax_score_range (new_AIPlayer "Hard") empty_board 2 true NegInf PosInf);
    [apply wf_empty_board | vm_compute; congruence | lia].
Defined.

Lemma root_score_finite (self : AIPlayer) (b : board) :
  wf_board b -> exists z, root_score self b = Fin z.
Proof.
  intros Hb; unfold root_score.
  destruct (minimax_value_inv self (fun _ _ => True))
    with (fuel := search_fuel b) (b := b) (depth := 0%Z) (is_max := false)
         (alpha := NegInf) (beta := PosInf) as (z & -> & _); auto.
  simpl; eauto.
Qed.

(** ** The root loop picks the first best move *)

Lemma best_move_by_fold (f : board -> score) (b : board) :
  best_move_by f b = snd (fold_left (best_step f b) (AI.get_empty_cells b) (NegInf, None)).
Proof.
  unfold best_move_by; f_equal.
  generalize (NegInf, @None move).
  induction (AI.get_empty_cells b) as [|[r c] rest IH]; intros [bs bm]; simpl;
    [reflexivity|].
  rewrite IH; f_equal.
Qed.

Lemma best_fold_spec (f : board -> score) (b : board) (cells : list move) :
  (forall m, In m cells -> child_score f b m <> NegInf) ->
  forall done bs bm,
    ((bm = None /\ bs = NegInf /\ done = [])
     \/ (exists m, bm = Some m /\ bs = child_score f b m /\ first_best f b done m)) ->
    (snd (fold_left (best_step f b) cells (bs, bm)) = None /\ done ++ cells = [])
    \/ (exists m, snd (fold_left (best_step f b) cells (bs, bm)) = Some m
                  /\ first_best f b (done ++ cells) m).
Proof.
  induction cells as [|rc rest IH]; intros Hfin done bs bm Hinv.
  - simpl; rewrite app_nil_r.
    destruct Hinv as [(-> & _ & ->)|(m & -> & _ & Hm)]; eauto.
  - replace (done ++ rc :: rest) with ((done ++ [rc]) ++ rest)
      by (now rewrite <- app_assoc).
    assert (Hfin' : forall m, In m rest -> child_score f b m <> NegInf)
      by (intros; apply Hfin; simpl; auto).
    pose proof (Hfin rc (or_introl eq_refl)) as Hrc.
    cbn [fold_left].
    assert (Hstep : best_step f b (bs, bm) rc
                    = if score_ltb bs (child_score f b rc)
                      then (child_score f b rc, Some rc) else (bs, bm)) by reflexivity.
    rewrite Hstep; clear Hstep.
    destruct (score_ltb bs (child_score f b rc)) eqn:E.
    + apply IH; auto; right; exists rc; split; [reflexivity|]; split; [reflexivity|].
      exists done, []; split; [reflexivity|]; split; [|intros ? []].
      destruct Hinv as [(_ & _ & ->)|(m & _ & -> & (pre & post & -> & Hpre & Hpost))];
        [intros ? []|].
      intros m' Hin.
      apply in_app_or in Hin as [Hin|[<-|Hin]].
      * specialize (Hpre m' Hin); clear - Hpre E.
        revert Hpre E; generalize (child_score f b m'), (child_score f b m),
          (child_score f b rc); intros; score_order.
      * exact E.
      * specialize (Hpost m' Hin); clear - Hpost E.
        revert Hpost E; generalize (child_score f b m'), (child_score f b m),
          (child_score f b rc); intros; score_order.
    + apply IH; auto; right.
      destruct Hinv as [(_ & -> & _)|(m & -> & -> & (pre & post & -> & Hpre & Hpost))].
      * exfalso; destruct (child_score f b rc); simpl in E; congruence.
      * exists m; split; [reflexivity|]; split; [reflexivity|].
        exists pre, (post ++ [rc]); split; [now rewrite <- !app_assoc|].
        split; [exact Hpre|].
        intros m' Hin; apply in_app_or in Hin as [Hin|[<-|[]]]; [now apply Hpost|].
        unfold score_leb; now rewrite E.
Qed.

Lemma best_move_by_spec (f : board -> score) (b : board) :
  (forall m, In m (AI.get_empty_cells b) -> child_score f b m <> NegInf) ->
  (AI.get_empty_cells b = [] -> best_move_by f b = None)
  /\ (AI.get_empty_cells b <> [] ->
      exists m, best_move_by f b = Some m /\ first_best f b (AI.get_empty_cells b) m).
Proof.
  intros Hfin.
  pose proof (best_fold_spec f b (AI.get_empty_cells b) Hfin [] NegInf None
                (or_introl (conj eq_refl (conj eq_refl eq_refl)))) as H.
  rewrite best_move_by_fold; simpl app in H; split.
  - intros Hnil; now rewrite Hnil.
  - intros Hne; destruct H as [[_ Hnil]|(m & Hm & Hbest)]; [congruence | eauto].
Qed.

Lemma root_scores_finite (self : AIPlayer) (b : board) :
  wf_board b ->
  forall m, In m (AI.get_empty_cells b) -> child_score (root_score self) b m <> NegInf.
Proof.
  intros Hb [r c] _; unfold child_score; simpl.
  destruct (root_score_finite self (set_cell b r c (Some O))) as [z ->];
    [now apply wf_set_cell | discriminate].
Qed.

Lemma first_best_in (f : board -> score) (b : board) (cells : list move) (m : move) :
  first_best f b cells m -> In m cells.
Proof. intros (pre & post & -> & _); apply in_or_app; simpl; auto. Qed.

(** X6: [_get_best_move] returns [None] only on a full board and otherwise
    the first cell, in row-major order, among the free cells whose pruned
    minimax score is the highest. *)
Theorem get_best_move_first_best (self : AIPlayer) (b : board) :
  wf_board b ->
  (AI.get_empty_cells b = [] -> _get_best_move self b = None)
  /\ (AI.get_empty_cells b <> [] ->
      exists m, _get_best_move self b = Some m
                /\ first_best (root_score self) b (AI.get_empty_cells b) m).
Proof.
  intros Hb; rewrite get_best_move_unfold.
  destruct (best_move_by_spec (root_score self) b (root_scores_finite self b Hb))
    as [Hnone Hsome].
  split; [exact Hnone|].
  intros Hne; destruct (Hsome Hne) as (m & Hm & Hbest); eauto.
Qed.

Lemma get_best_move_first_best_witness :
  exists m, _get_best_move Impossible lost_board = Some m
            /\ first_best (root_score Impossible) lost_board
                 (AI.get_empty_cells lost_board) m.
Proof.
  apply (proj2 (get_best_move_first_best Impossible lost_board
                  (wf_board_grid _ _ _ _ _ _ _ _ _))).
  discriminate.
Defined.

(** ** Legal moves *)

Lemma get_move_state (self : AIPlayer) (gs : GameState) (d : draws) :
  wf_board (gs_board gs) -> snd (get_move self gs d) = gs.
Proof.
  intros Hb; unfold get_move.
  destruct (Qltb _ _); [reflexivity|].
  pose proof (try_win_move_state gs Hb) as Hwin.
  destruct (String.eqb (difficulty self) "Easy").
  - destruct (_try_win_move gs) as [m gs1]; simpl in Hwin; subst gs1.
    destruct m; [reflexivity|]; now destruct (Qltb _ _).
  - destruct (String.eqb (difficulty self) "Medium"); [|reflexivity].
    destruct (_try_win_move gs) as [m gs1]; simpl in Hwin; subst gs1.
    destruct m; [reflexivity|].
    pose proof (try_block_move_state gs Hb) as Hblock.
    destruct (_try_block_move gs) as [m2 gs2]; simpl in Hblock; subst gs2.
    now destruct m2.
Qed.

Lemma game_empty_cells (gs : GameState) :
  Game.get_empty_cells gs = AI.get_empty_cells (gs_board gs).
Proof. reflexivity. Qed.

Lemma random_move_legal (gs : GameState) (d : draws) :
  (AI.get_empty_cells (gs_board gs) = [] -> _get_random_move gs d = None)
  /\ (AI.get_empty_cells (gs_board gs) <> [] ->
      exists m, _get_random_move gs d = Some m /\ In m (AI.get_empty_cells (gs_board gs))).
Proof.
  unfold _get_random_move; rewrite game_empty_cells.
  destruct (AI.get_empty_cells (gs_board gs)) as [|m0 rest] eqn:E.
  - split; [reflexivity | intros H; now elim H].
  - split; [discriminate | intros _; cbv beta iota; apply choice_in; discriminate].
Qed.

Lemma try_loop_legal (s : mark) (gs : GameState) (r c : nat) :
  wf_board (gs_board gs) ->
  fst (try_loop s (gs_board gs) all_cells) = Some (r, c) ->
  In (r, c) (AI.get_empty_cells (gs_board gs))
  /\ AI.check_winner (set_cell (gs_board gs) r c (Some s)) = Some s.
Proof.
  intros Hb H.
  destruct (try_loop_found s _ Hb all_cells r c all_cells_bound H) as (Hin & Hnone & Hw).
  split; [|exact Hw].
  apply in_empty_cells; destruct (all_cells_bound r c Hin); auto.
Qed.

Lemma try_loop_none_inv (s : mark) (b : board) (cells : list move) :
  wf_board b ->
  (forall r c, In (r, c) cells -> r < 3 /\ c < 3) ->
  fst (try_loop s b cells) = None ->
  forall r c, In (r, c) cells -> get_cell b r c = None ->
              AI.check_winner (set_cell b r c (Some s)) <> Some s.
Proof.
  intros Hwf; induction cells as [|[r0 c0] rest IH]; intros Hin Hnone r c Hrc Hfree;
    [contradiction|].
  assert (Hrest : forall r' c', In (r', c') rest -> r' < 3 /\ c' < 3)
    by (intros; apply Hin; simpl; auto).
  simpl in Hnone.
  destruct (is_none (get_cell b r0 c0)) eqn:E.
  - apply is_none_eq in E; destruct (Hin r0 c0 (or_introl eq_refl)) as [Hr Hc].
    rewrite (set_cell_undo b r0 c0 (Some s) Hwf Hr Hc E) in Hnone.
    destruct (cell_eqb (AI.check_winner (set_cell b r0 c0 (Some s))) (Some s)) eqn:Hw;
      [discriminate|].
    destruct Hrc as [Heq|Hrc]; [|now apply IH].
    inversion Heq; subst; intros Hwin; rewrite Hwin in Hw.
    now destruct s.
  - destruct Hrc as [Heq|Hrc]; [|now apply IH].
    inversion Heq; subst; rewrite Hfree in E; discriminate.
Qed.

Lemma try_loop_complete (s : mark) (b : board) (m : move) :
  wf_board b -> wins_at b s m ->
  exists r c, fst (try_loop s b all_cells) = Some (r, c).
Proof.
  intros Hb [Hin Hw]; destruct m as [r c]; apply in_empty_cells in Hin as (Hr & Hc & Hfree).
  destruct (fst (try_loop s b all_cells)) as [[r' c']|] eqn:E; [eauto|].
  exfalso; apply (try_loop_none_inv s b all_cells Hb all_cells_bound E r c); auto.
  now apply in_all_cells.
Qed.

Lemma try_loop_full (s : mark) (b : board) :
  wf_board b -> AI.get_empty_cells b = [] -> fst (try_loop s b all_cells) = None.
Proof.
  intros Hb Hnil; apply (try_loop_none s b Hb all_cells all_cells_bound).
  intros r c Hin Hfree; exfalso.
  assert (H : In (r, c) (AI.get_empty_cells b))
    by (apply in_empty_cells; destruct (all_cells_bound r c Hin); auto).
  now rewrite Hnil in H.
Qed.

Lemma strategic_move_legal (gs : GameState) (d : draws) :
  wf_board (gs_board gs) ->
  (AI.get_empty_cells (gs_board gs) = [] -> _get_strategic_move gs d = None)
  /\ (AI.get_empty_cells (gs_board gs) <> [] ->
      exists m, _get_strategic_move gs d = Some m
                /\ In m (AI.get_empty_cells (gs_board gs))).
Proof.
  intros Hb; unfold _get_strategic_move; rewrite game_empty_cells.
  destruct (is_none (get_cell (gs_board gs) 1 1)) eqn:Ec.
  - apply is_none_eq in Ec.
    assert (Hin : In (1, 1) (AI.get_empty_cells (gs_board gs)))
      by (apply in_empty_cells; auto).
    split; [intros Hnil; now rewrite Hnil in Hin | eauto].
  - destruct (filter _ _) as [|m0 rest] eqn:Ef.
    + destruct (AI.get_empty_cells (gs_board gs)) as [|e0 erest] eqn:Ee.
      * split; [reflexivity | intros H; now elim H].
      * split; [discriminate | intros _; cbv beta iota; apply choice_in; discriminate].
    + assert (Hsub : forall m, In m (m0 :: rest) -> In m (AI.get_empty_cells (gs_board gs))).
      { intros [r c] Hin; rewrite <- Ef in Hin; apply filter_In in Hin as [Hcor Hfree].
        apply is_none_eq in Hfree; simpl in Hfree; apply in_empty_cells.
        simpl in Hcor; repeat (destruct Hcor as [Heq|Hcor];
                               [inversion Heq; subst; repeat split; auto|]);
          contradiction. }
      destruct (choice_in (choice_draw d) (m0 :: rest)) as (m & Hm & Hin);
        [discriminate|].
      split; [|intros _; exists m; split; [exact Hm | now apply Hsub]].
      intros Hnil; specialize (Hsub m0 (or_introl eq_refl)); now rewrite Hnil in Hsub.
Qed.

Lemma get_move_cases (self : AIPlayer) (gs : GameState) (d : draws) :
  wf_board (gs_board gs) ->
  (AI.get_empty_cells (gs_board gs) = [] -> fst (get_move self gs d) = None)
  /\ (AI.get_empty_cells (gs_board gs) <> [] ->
      exists m, fst (get_move self gs d) = Some m
                /\ In m (AI.get_empty_cells (gs_board gs))).
Proof.
  intros Hb.
  pose proof (random_move_legal gs d) as Hrand.
  pose proof (strategic_move_legal gs d Hb) as Hstrat.
  pose proof (try_win_move_state gs Hb) as Hws.
  pose proof (try_block_move_state gs Hb) as Hbs.
  pose proof (try_win_move_fst gs) as Hwf.
  pose proof (try_block_move_fst gs) as Hbf.
  assert (Hwin : forall r c, fst (_try_win_move gs) = Some (r, c) ->
                             In (r, c) (AI.get_empty_cells (gs_board gs))).
  { intros r c H; rewrite Hwf in H; now apply (try_loop_legal O gs r c Hb). }
  assert (Hblock : forall r c, fst (_try_block_move gs) = Some (r, c) ->
                               In (r, c) (AI.get_empty_cells (gs_board gs))).
  { intros r c H; rewrite Hbf in H; now apply (try_loop_legal X gs r c Hb). }
  unfold get_move.
  destruct (Qltb _ _); [exact Hrand|].
  destruct (String.eqb (difficulty self) "Easy").
  - destruct (_try_win_move gs) as [m gs1]; simpl in Hws, Hwin; subst gs1.
    destruct m as [[r c]|].
    + split; [|intros _; exists (r, c); split; [reflexivity | now apply Hwin]].
      intros Hnil; specialize (Hwin r c eq_refl); now rewrite Hnil in Hwin.
    + now destruct (Qltb _ _).
  - destruct (String.eqb (difficulty self) "Medium").
    + destruct (_try_win_move gs) as [m gs1]; simpl in Hws, Hwin; subst gs1.
      destruct m as [[r c]|].
      * split; [|intros _; exists (r, c); split; [reflexivity | now apply Hwin]].
        intros Hnil; specialize (Hwin r c eq_refl); now rewrite Hnil in Hwin.
      * destruct (_try_block_move gs) as [m2 gs2]; simpl in Hbs, Hblock; subst gs2.
        destruct m2 as [[r c]|]; [|exact Hstrat].
        split; [|intros _; exists (r, c); split; [reflexivity | now apply Hblock]].
        intros Hnil; specialize (Hblock r c eq_refl); now rewrite Hnil in Hblock.
    + cbn [fst]; rewrite get_best_move_unfold.
      destruct (best_move_by_spec (root_score self) (gs_board gs)
                  (root_scores_finite self _ Hb)) as [Hnone Hsome].
      split; [exact Hnone|].
      intros Hne; destruct (Hsome Hne) as (m & Hm & Hbest).
      exists m; split; [exact Hm | now apply first_best_in in Hbest].
Qed.

(** X7: every move [get_move] returns is legal.  For every engine, every
    outcome of the random draws and every 3x3 board, [get_move] returns
    [None] when no cell is free and otherwise one of the free cells. *)
Theorem get_move_legal (self : AIPlayer) (gs : GameState) (d : draws) :
  wf_board (gs_board gs) ->
  (AI.get_empty_cells (gs_board gs) = [] -> fst (get_move self gs d) = None)
  /\ (AI.get_empty_cells (gs_board gs) <> [] ->
      exists m, fst (get_move self gs d) = Some m
                /\ In m (AI.get_empty_cells (gs_board gs))).
Proof.
  intros Hb; destruct (get_move_cases self gs d Hb) as [Hnone Hsome].
  split; [exact Hnone|].
  intros Hne; destruct (Hsome Hne) as (m & Hm & Hin).
  exists m; split; [exact Hm | exact Hin].
Qed.

Lemma get_move_legal_witness :
  exists m, fst (get_move (new_AIPlayer "Easy") (with_board (Game.init 0) lost_board)
                          (mkDraws 0 0 3)) = Some m
            /\ In m (AI.get_empty_cells lost_board).
Proof.
  apply (proj2 (get_move_legal (new_AIPlayer "Easy") (with_board (Game.init 0) lost_board)
                  (mkDraws 0 0 3) (wf_board_grid _ _ _ _ _ _ _ _ _))).
  discriminate.
Defined.

(** ** Immediate wins and blocks *)

Lemma root_score_won (self : AIPlayer) (b : board) :
  AI.check_winner b = Some O -> root_score self b = Fin 10.
Proof.
  intros Hw; unfold root_score, search_fuel; simpl; now rewrite Hw.
Qed.

Lemma minimax_range (self : AIPlayer) (fuel : nat) (b : board) (depth : Z)
    (is_max : bool) (alpha beta : score) :
  (max_depth self <= 10)%Z -> wf_board b -> length (AI.get_empty_cells b) < fuel ->
  exists z, _minimax self fuel b depth is_max alpha beta = Some (Fin z)
            /\ ((0 <= depth <= 10)%Z -> (depth - 10 <= z <= 10 - depth)%Z).
Proof.
  intros Hmax Hb Hfuel.
  apply (minimax_value_inv self
           (fun d z => (0 <= d <= 10 -> d - 10 <= z <= 10 - d)%Z));
    auto; intros; lia.
Qed.

Lemma root_score_not_won (self : AIPlayer) (b : board) :
  wf_board b -> (max_depth self <= 10)%Z -> AI.check_winner b <> Some O ->
  exists z, root_score self b = Fin z /\ (z <= 9)%Z.
Proof.
  intros Hb Hmax Hw; unfold root_score, search_fuel; simpl.
  destruct (AI.check_winner b) as [[|]|]; [exists (-10)%Z | congruence |];
    [split; [reflexivity | lia]|].
  destruct (AI.is_board_full b) eqn:Hfull; [exists 0%Z; split; [reflexivity | lia]|].
  destruct (max_depth self <=? 0)%Z; [exists 0%Z; split; [reflexivity | lia]|].
  destruct (min_loop_fin
              (fun b' a' b'' =>
                 _minimax self (length (AI.get_empty_cells b)) b' 1 true a' b'')
              b (fun z => (z <= 9)%Z) (AI.get_empty_cells b))
    with (m := PosInf) (a := NegInf) (beta := PosInf) as (z & Hz & Hle).
  - intros r c a be Hin.
    destruct (minimax_range self (length (AI.get_empty_cells b))
                (set_cell b r c (Some X)) 1%Z true a be Hmax)
      as (z & Hz & Hr).
    + now apply wf_set_cell.
    + pose proof (empties_after_move b r c X Hb Hin); lia.
    + exists z; split; [exact Hz | lia].
  - left; split; [reflexivity | now apply not_full_has_empty].
  - rewrite Hz; exists z; auto.
Qed.

Lemma first_best_max (f : board -> score) (b : board) (cells : list move) (m : move) :
  first_best f b cells m ->
  forall m', In m' cells -> score_leb (child_score f b m') (child_score f b m) = true.
Proof.
  intros (pre & post & -> & Hpre & Hpost) m' Hin.
  apply in_app_or in Hin as [Hin|[<-|Hin]].
  - specialize (Hpre m' Hin); revert Hpre.
    generalize (child_score f b m'), (child_score f b m); intros; score_order.
  - generalize (child_score f b m); intros; score_order.
  - now apply Hpost.
Qed.

Lemma best_move_takes_win (self : AIPlayer) (b : board) :
  wf_board b -> (max_depth self <= 10)%Z ->
  (exists m, wins_at b O m) ->
  exists m, _get_best_move self b = Some m /\ wins_at b O m.
Proof.
  intros Hb Hmax ([r c] & Hin & Hw); simpl in Hw.
  rewrite get_best_move_unfold.
  destruct (best_move_by_spec (root_score self) b (root_scores_finite self b Hb))
    as [_ Hsome].
  destruct Hsome as (m & Hm & Hbest); [intros Hnil; now rewrite Hnil in Hin|].
  exists m; split; [exact Hm|]; split; [now apply first_best_in in Hbest|].
  pose proof (first_best_max _ _ _ _ Hbest (r, c) Hin) as Hle.
  unfold child_score in Hle; simpl in Hle; rewrite (root_score_won self _ Hw) in Hle.
  destruct (AI.check_winner (set_cell b (fst m) (snd m) (Some O))) as [[|]|] eqn:E;
    try reflexivity;
    (destruct (root_score_not_won self (set_cell b (fst m) (snd m) (Some O)))
       as (z & Hz & Hz9);
     [now apply wf_set_cell | exact Hmax | congruence |];
     rewrite Hz in Hle; unfold score_leb in Hle; simpl in Hle;
     apply negb_true_iff, Z.ltb_ge in Hle; lia).
Qed.

Lemma try_win_move_takes_win (gs : GameState) :
  wf_board (gs_board gs) ->
  (exists m, wins_at (gs_board gs) O m) ->
  exists m, fst (_try_win_move gs) = Some m /\ wins_at (gs_board gs) O m.
Proof.
  intros Hb (m & Hm).
  destruct (try_loop_complete O _ m Hb Hm) as (r & c & Hrc).
  exists (r, c); split; [now rewrite try_win_move_fst|].
  destruct (try_loop_legal O gs r c Hb Hrc); split; auto.
Qed.

Lemma try_block_move_blocks (gs : GameState) :
  wf_board (gs_board gs) ->
  (exists m, wins_at (gs_board gs) X m) ->
  exists m, fst (_try_block_move gs) = Some m /\ wins_at (gs_board gs) X m.
Proof.
  intros Hb (m & Hm).
  destruct (try_loop_complete X _ m Hb Hm) as (r & c & Hrc).
  exists (r, c); split; [now rewrite try_block_move_fst|].
  destruct (try_loop_legal X gs r c Hb Hrc); split; auto.
Qed.

(** X8: no tier passes up a win.  For every engine with [max_depth <= 10]
    (every tier) and every 3x3 board on which some free cell completes a line
    of ["O"], [get_move] returns such a cell unless the mistake draw falls
    below the tier's mistake probability. *)
Theorem get_move_takes_win (self : AIPlayer) (gs : GameState) (d : draws) :
  wf_board (gs_board gs) ->
  (max_depth self <= 10)%Z ->
  Qltb (random_value (mistake_draw d)) (mistake_probability self) = false ->
  (exists m, wins_at (gs_board gs) O m) ->
  exists m, fst (get_move self gs d) = Some m /\ wins_at (gs_board gs) O m.
Proof.
  intros Hb Hmax Hmist Hwin; unfold get_move; rewrite Hmist.
  pose proof (try_win_move_takes_win gs Hb Hwin) as (m & Hm & Hwm).
  destruct (String.eqb (difficulty self) "Easy").
  - destruct (_try_win_move gs) as [m' gs1]; simpl in Hm; subst m'.
    exists m; split; [reflexivity | exact Hwm].
  - destruct (String.eqb (difficulty self) "Medium").
    + destruct (_try_win_move gs) as [m' gs1]; simpl in Hm; subst m'.
      exists m; split; [reflexivity | exact Hwm].
    + now apply best_move_takes_win.
Qed.

Lemma get_move_takes_win_witness :
  exists m, fst (get_move (new_AIPlayer "Hard") (with_board (Game.init 0) o_threat_board)
                          (mkDraws 9007199254740991 0 0)) = Some m
            /\ wins_at o_threat_board O m.
Proof.
  apply (get_move_takes_win (new_AIPlayer "Hard")
           (with_board (Game.init 0) o_threat_board) (mkDraws 9007199254740991 0 0)).
  - apply wf_board_grid.
  - vm_compute; congruence.
  - vm_compute; reflexivity.
  - exists (0, 2); split; [simpl; auto 10 | reflexivity].
Defined.

(** X9: the Medium tier blocks.  On a 3x3 board where no free cell wins for
    ["O"] but some free cell would complete a line of ["X"], the Medium tier
    returns such a cell unless the mistake draw falls below its mistake
    probability. *)
Theorem medium_blocks (gs : GameState) (d : draws) :
  wf_board (gs_board gs) ->
  Qltb (random_value (mistake_draw d)) float_0_15 = false ->
  (forall m, ~ wins_at (gs_board gs) O m) ->
  (exists m, wins_at (gs_board gs) X m) ->
  exists m, fst (get_move (new_AIPlayer "Medium") gs d) = Some m
            /\ wins_at (gs_board gs) X m.
Proof.
  intros Hb Hmist Hnowin Hthreat; unfold get_move.
  change (mistake_probability (new_AIPlayer "Medium")) with float_0_15; rewrite Hmist.
  change (String.eqb (difficulty (new_AIPlayer "Medium")) "Easy") with false.
  change (String.eqb (difficulty (new_AIPlayer "Medium")) "Medium") with true.
  cbv iota.
  pose proof (try_win_move_state gs Hb) as Hws.
  assert (Hnone : fst (_try_win_move gs) = None).
  { rewrite try_win_move_fst.
    destruct (fst (try_loop O (gs_board gs) all_cells)) as [[r c]|] eqn:E; [|reflexivity].
    destruct (try_loop_legal O gs r c Hb E) as [Hin Hw].
    exfalso; apply (Hnowin (r, c)); split; auto. }
  destruct (_try_win_move gs) as [m' gs1]; simpl in Hws, Hnone; subst m' gs1.
  destruct (try_block_move_blocks gs Hb Hthreat) as (m & Hm & Hwm).
  destruct (_try_block_move gs) as [m' gs2]; simpl in Hm; subst m'.
  exists m; split; [reflexivity | exact Hwm].
Qed.

Lemma medium_blocks_witness :
  exists m, fst (get_move (new_AIPlayer "Medium") (with_board (Game.init 0) lost_board)
                          (mkDraws 9007199254740991 0 0)) = Some m
            /\ wins_at lost_board X m.
Proof.
  apply (medium_blocks (with_board (Game.init 0) lost_board)
           (mkDraws 9007199254740991 0 0)).
  - apply wf_board_grid.
  - vm_compute; reflexivity.
  - intros [r c] [Hin Hw]; simpl in Hin.
    repeat (destruct Hin as [Heq|Hin]; [inversion Heq; subst; discriminate|]).
    contradiction.
  - exists (1, 2); split; [simpl; auto 10 | reflexivity].
Defined.

(** ** The positional heuristic *)

(** X10: [_get_strategic_move] takes the centre when it is free; with the
    centre taken it returns a free corner when there is one; with centre and
    corners taken it returns some free cell, and [None] only on a full
    board. *)
Theorem strategic_move_order (gs : GameState) (d : draws) :
  (get_cell (gs_board gs) 1 1 = None -> _get_strategic_move gs d = Some (1, 1))
  /\ (get_cell (gs_board gs) 1 1 <> None ->
      (exists m, In m corners /\ at_move (gs_board gs) m = None) ->
      exists m, _get_strategic_move gs d = Some m
                /\ In m corners /\ at_move (gs_board gs) m = None)
  /\ (get_cell (gs_board gs) 1 1 <> None ->
      (forall m, In m corners -> at_move (gs_board gs) m <> None) ->
      (AI.get_empty_cells (gs_board gs) = [] -> _get_strategic_move gs d = None)
      /\ (AI.get_empty_cells (gs_board gs) <> [] ->
          exists m, _get_strategic_move gs d = Some m
                    /\ In m (AI.get_empty_cells (gs_board gs))
                    /\ ~ In m corners /\ m <> (1, 1))).
Proof.
  unfold _get_strategic_move; rewrite game_empty_cells; unfold at_move.
  change [(0, 0); (0, 2); (2, 0); (2, 2)] with corners.
  remember (filter (fun rc : move => is_none (get_cell (gs_board gs) (fst rc) (snd rc)))
                   corners) as free eqn:Ef.
  assert (Hfree_in : forall m, In m free <->
                               In m corners /\ get_cell (gs_board gs) (fst m) (snd m) = None).
  { intros m; rewrite Ef, filter_In, is_none_eq; tauto. }
  clear Ef.
  split; [intros ->; reflexivity|].
  split.
  - intros Hc (m & Hin & Hfree).
    destruct (get_cell (gs_board gs) 1 1) eqn:Ec; [|congruence]; simpl.
    destruct free as [|f0 rest].
    + exfalso; apply (proj2 (Hfree_in m)); auto.
    + destruct (choice_in (choice_draw d) (f0 :: rest)) as (m1 & Hm1 & Hin1);
        [discriminate|].
      exists m1; split; [exact Hm1 | now apply Hfree_in].
  - intros Hc Hcorners.
    destruct (get_cell (gs_board gs) 1 1) eqn:Ec; [|congruence]; simpl.
    destruct free as [|f0 rest].
    + destruct (AI.get_empty_cells (gs_board gs)) as [|e0 erest] eqn:Ee.
      * split; [reflexivity | intros H; now elim H].
      * split; [discriminate | intros _].
        destruct (choice_in (choice_draw d) (e0 :: erest)) as (m1 & Hm1 & Hin1);
          [discriminate|].
        exists m1; split; [exact Hm1|]; split; [exact Hin1|].
        rewrite <- Ee in Hin1; destruct m1 as [r c].
        apply in_empty_cells in Hin1 as (_ & _ & Hfree).
        split; [intros Hcor; now apply (Hcorners _ Hcor)|].
        intros Heq; inversion Heq; subst; congruence.
    + exfalso; destruct (proj1 (Hfree_in f0) (or_introl eq_refl)) as [Hcor Hnone].
      now apply (Hcorners _ Hcor).
Qed.

Lemma strategic_move_order_witness :
  exists m, _get_strategic_move (with_board (Game.init 0) corner_board) (mkDraws 0 0 7)
            = Some m
            /\ In m corners /\ at_move corner_board m = None.
Proof.
  apply (proj1 (proj2 (strategic_move_order (with_board (Game.init 0) corner_board)
                         (mkDraws 0 0 7)))).
  - discriminate.
  - exists (2, 2); split; [simpl; auto | reflexivity].
Defined.

(** ** The helpers that write the move *)

Lemma place_O_some (gs : GameState) (m : move) :
  In m (AI.get_empty_cells (gs_board gs)) -> places_one_O gs (place_O gs (Some m)).
Proof. destruct m as [r c]; intros Hin; right; exists r, c; auto. Qed.

Lemma place_O_cases (gs : GameState) (res : option move) :
  (AI.get_empty_cells (gs_board gs) = [] -> res = None) ->
  (AI.get_empty_cells (gs_board gs) <> [] ->
   exists m, res = Some m /\ In m (AI.get_empty_cells (gs_board gs))) ->
  places_one_O gs (place_O gs res).
Proof.
  intros Hnone Hsome.
  destruct (AI.get_empty_cells (gs_board gs)) as [|e0 rest] eqn:E.
  - left; rewrite (Hnone eq_refl); auto.
  - destruct Hsome as (m & -> & Hin); [discriminate|].
    apply place_O_some; now rewrite E.
Qed.

(** X11: the three helpers that apply a move, [AIPlayer.make_move],
    [_make_random_move] and [_make_strategic_move], leave a full 3x3 board as
    it is and otherwise write ["O"] into exactly one free cell: the marks
    already on the board stay and one free cell less remains. *)
Theorem ai_moves_place_one_O (self : AIPlayer) (gs : GameState) (d : draws) :
  wf_board (gs_board gs) ->
  places_one_O gs (AI_make_move self gs d)
  /\ places_one_O gs (_make_random_move gs d)
  /\ places_one_O gs (_make_strategic_move gs d)
  /\ forall gs',
       places_one_O gs gs' ->
       (forall r c, get_cell (gs_board gs) r c <> None ->
                    get_cell (gs_board gs') r c = get_cell (gs_board gs) r c)
       /\ (AI.get_empty_cells (gs_board gs) <> [] ->
           S (length (AI.get_empty_cells (gs_board gs')))
           = length (AI.get_empty_cells (gs_board gs))).
Proof.
  intros Hb; split; [|split; [|split]].
  - unfold AI_make_move.
    pose proof (get_move_state self gs d Hb) as Hst.
    destruct (get_move_cases self gs d Hb) as [Hnone Hsome].
    destruct (get_move self gs d) as [m gs1]; simpl in *; subst gs1.
    change (places_one_O gs (place_O gs m)); now apply place_O_cases.
  - unfold _make_random_move.
    destruct (random_move_legal gs d); now apply place_O_cases.
  - unfold _make_strategic_move.
    destruct (strategic_move_legal gs d Hb); now apply place_O_cases.
  - intros gs' [[Hnil ->]|(r & c & Hin & ->)].
    + split; [reflexivity | congruence].
    + simpl gs_board; split.
      * intros r' c' Hocc; apply get_set_other; auto.
        intros Heq; inversion Heq; subst.
        apply in_empty_cells in Hin as (_ & _ & Hfree); congruence.
      * intros _; now apply empties_after_move.
Qed.

Lemma ai_moves_place_one_O_witness :
  places_one_O (Game.init 0) (AI_make_move Impossible (Game.init 0) (mkDraws 0 0 0)).
Proof.
  apply (ai_moves_place_one_O Impossible (Game.init 0) (mkDraws 0 0 0) wf_empty_board).
Defined.

(** X12: [_try_win] returns [True] exactly when some free cell completes a
    line of ["O"]; it then leaves ["O"] on such a cell, so that the board is
    won by ["O"].  [_try_block] returns [True] exactly when some free cell
    would complete a line of ["X"]; it then leaves ["O"] on such a cell.  A
    call that returns [False] leaves the state as it was. *)
Theorem try_win_and_block (gs : GameState) :
  wf_board (gs_board gs) ->
  (fst (_try_win gs) = true <-> exists m, wins_at (gs_board gs) O m)
  /\ (fst (_try_win gs) = true ->
      exists m, wins_at (gs_board gs) O m
                /\ snd (_try_win gs) = place_O gs (Some m)
                /\ AI.check_winner (gs_board (snd (_try_win gs))) = Some O)
  /\ (fst (_try_win gs) = false -> snd (_try_win gs) = gs)
  /\ (fst (_try_block gs) = true <-> exists m, wins_at (gs_board gs) X m)
  /\ (fst (_try_block gs) = true ->
      exists m, wins_at (gs_board gs) X m /\ snd (_try_block gs) = place_O gs (Some m))
  /\ (fst (_try_block gs) = false -> snd (_try_block gs) = gs).
Proof.
  intros Hb.
  pose proof (try_win_move_state gs Hb) as Hws.
  pose proof (try_block_move_state gs Hb) as Hbs.
  pose proof (try_win_move_takes_win gs Hb) as Hwc.
  pose proof (try_block_move_blocks gs Hb) as Hbc.
  assert (Hwl : forall m, fst (_try_win_move gs) = Some m -> wins_at (gs_board gs) O m).
  { intros [r c] H; rewrite try_win_move_fst in H.
    destruct (try_loop_legal O gs r c Hb H); split; auto. }
  assert (Hbl : forall m, fst (_try_block_move gs) = Some m -> wins_at (gs_board gs) X m).
  { intros [r c] H; rewrite try_block_move_fst in H.
    destruct (try_loop_legal X gs r c Hb H); split; auto. }
  unfold _try_win, _try_block.
  destruct (_try_win_move gs) as [mw gs1]; simpl in Hws, Hwc, Hwl; subst gs1.
  destruct (_try_block_move gs) as [mb gs2]; simpl in Hbs, Hbc, Hbl; subst gs2.
  split; [|split; [|split; [|split; [|split]]]].
  - destruct mw as [m|]; simpl; split; auto; try discriminate.
    + intros _; exists m; auto.
    + intros Hex; destruct (Hwc Hex) as (m & Hm & _); discriminate.
  - destruct mw as [m|]; simpl; [|discriminate].
    intros _; exists m; split; [auto|]; split; [reflexivity|].
    destruct (Hwl m eq_refl) as [_ Hw]; destruct m as [r c]; exact Hw.
  - destruct mw as [m|]; simpl; [discriminate | reflexivity].
  - destruct mb as [m|]; simpl; split; auto; try discriminate.
    + intros _; exists m; auto.
    + intros Hex; destruct (Hbc Hex) as (m & Hm & _); discriminate.
  - destruct mb as [m|]; simpl; [|discriminate].
    intros _; exists m; split; [auto | reflexivity].
  - destruct mb as [m|]; simpl; [discriminate | reflexivity].
Qed.

Lemma try_win_and_block_witness :
  exists m, wins_at o_threat_board O m
            /\ snd (_try_win (with_board (Game.init 0) o_threat_board))
               = place_O (with_board (Game.init 0) o_threat_board) (Some m)
            /\ AI.check_winner
                 (gs_board (snd (_try_win (with_board (Game.init 0) o_threat_board))))
               = Some O.
Proof.
  apply (proj1 (proj2 (try_win_and_block (with_board (Game.init 0) o_threat_board)
                         (wf_board_grid _ _ _ _ _ _ _ _ _)))).
  reflexivity.
Defined.

(** ** One round of the game screen *)





















(** ** Clicks on the board *)





(** ** A whole session against the Impossible tier *)














(** ** Free cells and fullness *)

Lemma cells_add_up_all : forall_boards cells_add_up = true.
Proof. vm_compute. reflexivity. Qed.

(** X16: [is_board_full] and [get_empty_cells] agree.  On a 3x3 board, for
    the engine's helpers and for [GameState] alike, the board is full exactly
    when the list of free cells is empty, and the free cells, the ["X"] marks
    and the ["O"] marks together are nine. *)
Theorem board_full_iff_no_empty_cells (gs : GameState) :
  wf_board (gs_board gs) ->
  (AI.is_board_full (gs_board gs) = true <-> AI.get_empty_cells (gs_board gs) = [])
  /\ (Game.is_board_full gs = true <-> Game.get_empty_cells gs = [])
  /\ length (Game.get_empty_cells gs) + count_mark X (gs_board gs)
     + count_mark O (gs_board gs) = 9.
Proof.
  intros Hb.
  pose proof (forall_boards_sound _ full_iff_no_empties_all _ Hb) as Hfull.
  pose proof (forall_boards_sound _ cells_add_up_all _ Hb) as Hsum.
  unfold full_iff_no_empties in Hfull; apply Bool.eqb_prop in Hfull.
  unfold cells_add_up in Hsum; apply Nat.eqb_eq in Hsum.
  assert (Hiff : AI.is_board_full (gs_board gs) = true
                 <-> AI.get_empty_cells (gs_board gs) = []).
  { rewrite Hfull; destruct (AI.get_empty_cells (gs_board gs)); split; congruence. }
  split; [exact Hiff|]; split; [exact Hiff | exact Hsum].
Qed.

Lemma board_full_iff_no_empty_cells_witness :
  (Game.is_board_full (with_board (Game.init 0) drawn_board) = true
   <-> Game.get_empty_cells (with_board (Game.init 0) drawn_board) = [])
  /\ length (Game.get_empty_cells (with_board (Game.init 0) drawn_board))
     + count_mark X drawn_board + count_mark O drawn_board = 9.
Proof.
  apply (proj2 (board_full_iff_no_empty_cells (with_board (Game.init 0) drawn_board)
                  (wf_board_grid _ _ _ _ _ _ _ _ _))).
Defined.
